(** * rockscopy: the in-memory write path of an LSM key-value engine

    A shallow embedding of the encoding primitives (util/coding), the hash
    (util/hash), the arena (util/arena), the skip list (db/skiplist) and the
    mutation batch (leveldb/write_batch.h), with the properties stated about
    them.

    Conventions.
    - A C++ unsigned integer of width w is a [Z] in [0, 2^w); every operation
      that can leave the range is followed by its reduction modulo [2^w].
    - A byte is a [Z] in [0, 256).  A pair of pointers [(p, limit)] into a
      buffer is the list of the bytes in [[p, limit)]; a returned pointer [q]
      with the same limit is the list of the bytes in [[q, limit)], and
      [nullptr] is [None].  A [Slice] is the list of the bytes it views.
    - An out-parameter that the code writes only on success is returned inside
      [Some]; where the caller's variables must be followed across a failing
      call they are passed in and returned explicitly. *)

From Stdlib Require Import ZArith List Lia Bool Btauto.
From stdpp Require Import base list option.
From coqutil Require Import Z.bitblast.
Local Open Scope Z_scope.

(** ** Machine integers *)

Definition uint8 (x : Z) : Z := x mod 2 ^ 8.
Definition uint32 (x : Z) : Z := x mod 2 ^ 32.
Definition uint64 (x : Z) : Z := x mod 2 ^ 64.

Definition is_uint8 (x : Z) : Prop := 0 <= x < 2 ^ 8.
Definition is_uint32 (x : Z) : Prop := 0 <= x < 2 ^ 32.
Definition is_uint64 (x : Z) : Prop := 0 <= x < 2 ^ 64.

(** ** util/coding: variable-length integers *)

Module Coding.

(** A [Slice] is a pointer and a size; it is modelled by the bytes it views.
    [remove_prefix n] advances the pointer by [n] and shrinks the size. *)
Definition Slice := list Z.
Definition size (s : Slice) : Z := Z.of_nat (length s).
Definition remove_prefix (s : Slice) (n : Z) : Slice := drop (Z.to_nat n) s.

(** [void EncodeFixed32(char *buf, uint32_t value)]: [memcpy] of the value;
    [port::kLittleEndian] is [true], so the least significant byte comes
    first.  The four bytes written at [buf]. *)
Definition EncodeFixed32 (value : Z) : list Z :=
  [uint8 value; uint8 (Z.shiftr value 8); uint8 (Z.shiftr value 16);
   uint8 (Z.shiftr value 24)].

(** [void EncodeFixed64(char *buf, uint64_t value)] *)
Definition EncodeFixed64 (value : Z) : list Z :=
  EncodeFixed32 value ++ EncodeFixed32 (Z.shiftr value 32).

(** [void PutFixed32(std::string *dst, uint32_t value)] *)
Definition PutFixed32 (dst : list Z) (value : Z) : list Z :=
  dst ++ EncodeFixed32 value.

(** [void PutFixed64(std::string *dst, uint64_t value)] *)
Definition PutFixed64 (dst : list Z) (value : Z) : list Z :=
  dst ++ EncodeFixed64 value.

(** The byte at [ptr[i]]; the code reads without bounds checking, and a read
    past the modelled bytes yields 0 here. *)
Definition byte_at (ptr : list Z) (i : nat) : Z := default 0 (ptr !! i).

(** [inline uint32_t DecodeFixed32(const char *ptr)] (coding.h): a load of four
    bytes on a little-endian target. *)
Definition DecodeFixed32 (ptr : list Z) : Z :=
  Z.lor (Z.lor (Z.lor (byte_at ptr 0) (Z.shiftl (byte_at ptr 1) 8))
               (Z.shiftl (byte_at ptr 2) 16))
        (Z.shiftl (byte_at ptr 3) 24).

(** [inline uint64_t DecodeFixed64(const char *ptr)] (coding.h): a load of
    eight bytes on a little-endian target. *)
Definition DecodeFixed64 (ptr : list Z) : Z :=
  Z.lor (DecodeFixed32 ptr) (Z.shiftl (DecodeFixed32 (drop 4 ptr)) 32).

(** [char *EncodeVarint32(char *dst, uint32_t v)]: the bytes stored at [dst];
    the returned pointer is [dst] plus their number.  Each store through the
    [unsigned char *] keeps the low eight bits. *)
Definition EncodeVarint32 (v : Z) : list Z :=
  let B := 128 in
  if v <? Z.shiftl 1 7 then
    [uint8 v]
  else if v <? Z.shiftl 1 14 then
    [uint8 (Z.lor v B); uint8 (Z.shiftr v 7)]
  else if v <? Z.shiftl 1 21 then
    [uint8 (Z.lor v B); uint8 (Z.lor (Z.shiftr v 7) B); uint8 (Z.shiftr v 14)]
  else if v <? Z.shiftl 1 28 then
    [uint8 (Z.lor v B); uint8 (Z.lor (Z.shiftr v 7) B);
     uint8 (Z.lor (Z.shiftr v 14) B); uint8 (Z.shiftr v 21)]
  else
    [uint8 (Z.lor v B); uint8 (Z.lor (Z.shiftr v 7) B);
     uint8 (Z.lor (Z.shiftr v 14) B); uint8 (Z.lor (Z.shiftr v 21) B);
     uint8 (Z.shiftr v 28)].

(** [void PutVarint32(std::string *dst, uint32_t v)] *)
Definition PutVarint32 (dst : list Z) (v : Z) : list Z :=
  dst ++ EncodeVarint32 v.

(** The loop of [EncodeVarint64]: [while (v >= B) { *(ptr++) = (v & (B-1)) | B;
    v >>= 7; } *(ptr++) = v;].  Every iteration removes seven bits of [v], so
    the fuel only has to exceed the number of iterations. *)
Fixpoint EncodeVarint64_loop (fuel : nat) (v : Z) : list Z :=
  let B := 128 in
  match fuel with
  | O => [uint8 v]
  | S fuel' =>
      if v >=? B then
        uint8 (Z.lor (Z.land v (B - 1)) B) :: EncodeVarint64_loop fuel' (Z.shiftr v 7)
      else [uint8 v]
  end.

(** [char *EncodeVarint64(char *dst, uint64_t v)]; a [uint64_t] has 64 bits, so
    64 iterations are more than the loop can make. *)
Definition EncodeVarint64 (v : Z) : list Z := EncodeVarint64_loop 64 v.

(** [void PutVarint64(std::string *dst, uint64_t v)] *)
Definition PutVarint64 (dst : list Z) (v : Z) : list Z :=
  dst ++ EncodeVarint64 v.

(** [void PutLengthPrefixedSlice(std::string *dst, const Slice &value)]: the
    size, a [size_t], is converted to the [uint32_t] parameter of
    [PutVarint32]. *)
Definition PutLengthPrefixedSlice (dst : list Z) (value : Slice) : list Z :=
  PutVarint32 dst (uint32 (size value)) ++ value.

(** The loop of [VarintLength]. *)
Fixpoint VarintLength_loop (fuel : nat) (v : Z) (len : Z) : Z :=
  match fuel with
  | O => len
  | S fuel' =>
      if v >=? 128 then VarintLength_loop fuel' (Z.shiftr v 7) (len + 1)
      else len
  end.

(** [int VarintLength(uint64_t v)] *)
Definition VarintLength (v : Z) : Z := VarintLength_loop 64 v 1.

(** The loop of [GetVarint32PtrFallback], started at [shift] with the bits
    gathered so far in [result]:
    [for (; shift <= 28 && p < limit; shift += 7)]. *)
Fixpoint GetVarint32PtrFallback_loop (shift result : Z) (p : list Z)
  : option (Z * list Z) :=
  if shift <=? 28 then
    match p with
    | [] => None
    | byte :: p' =>
        if negb (Z.land byte 128 =? 0) then
          GetVarint32PtrFallback_loop (shift + 7)
            (Z.lor result (uint32 (Z.shiftl (Z.land byte 127) shift))) p'
        else
          Some (Z.lor result (uint32 (Z.shiftl byte shift)), p')
    end
  else None.

(** [const char *GetVarint32PtrFallback(const char *p, const char *limit,
    uint32_t *value)] *)
Definition GetVarint32PtrFallback (p : list Z) : option (Z * list Z) :=
  GetVarint32PtrFallback_loop 0 0 p.

(** [inline const char *GetVarint32Ptr(const char *p, const char *limit,
    uint32_t *value)] (coding.h): a one-byte fast path, then the fallback. *)
Definition GetVarint32Ptr (p : list Z) : option (Z * list Z) :=
  match p with
  | result :: p' =>
      if Z.land result 128 =? 0 then Some (result, p')
      else GetVarint32PtrFallback p
  | [] => GetVarint32PtrFallback p
  end.

(** The loop of [GetVarint64Ptr]:
    [for (; shift <= 63 && p < limit; shift += 7)]. *)
Fixpoint GetVarint64Ptr_loop (shift result : Z) (p : list Z)
  : option (Z * list Z) :=
  if shift <=? 63 then
    match p with
    | [] => None
    | byte :: p' =>
        if negb (Z.land byte 128 =? 0) then
          GetVarint64Ptr_loop (shift + 7)
            (Z.lor result (uint64 (Z.shiftl (Z.land byte 127) shift))) p'
        else
          Some (Z.lor result (uint64 (Z.shiftl byte shift)), p')
    end
  else None.

(** [const char *GetVarint64Ptr(const char *p, const char *limit,
    uint64_t *value)] *)
Definition GetVarint64Ptr (p : list Z) : option (Z * list Z) :=
  GetVarint64Ptr_loop 0 0 p.

(** [bool GetVarint32(Slice *input, uint32_t *value)].  The caller's [*input]
    and [*value] go in and come out next to the returned flag. *)
Definition GetVarint32 (input : Slice) (value : Z) : bool * Slice * Z :=
  match GetVarint32Ptr input with
  | None => (false, input, value)
  | Some (v, q) => (true, q, v)
  end.

(** [bool GetVarint64(Slice *input, uint64_t *value)] *)
Definition GetVarint64 (input : Slice) (value : Z) : bool * Slice * Z :=
  match GetVarint64Ptr input with
  | None => (false, input, value)
  | Some (v, q) => (true, q, v)
  end.

(** [const char *GetLengthPrefixedSlice(const char *p, const char *limit,
    Slice *result)]: [p + len > limit] compares the length with the bytes
    left. *)
Definition GetLengthPrefixedSlicePtr (p : list Z) : option (Slice * list Z) :=
  match GetVarint32Ptr p with
  | None => None
  | Some (len, p1) =>
      if len >? size p1 then None
      else Some (take (Z.to_nat len) p1, drop (Z.to_nat len) p1)
  end.

(** [bool GetLengthPrefixedSlice(Slice *input, Slice *result)].  The local
    [len] is only read when [GetVarint32] has written it. *)
Definition GetLengthPrefixedSlice (input result : Slice)
  : bool * Slice * Slice :=
  let '(ok, input1, len) := GetVarint32 input 0 in
  if ok && (size input1 >=? len) then
    (true, remove_prefix input1 len, take (Z.to_nat len) input1)
  else
    (false, input1, result).

(** Bit [i] of a buffer: bits are numbered from 0 to 7 in the first byte, 8 to
    15 in the second and so on. *)
Definition bit_at (buf : list Z) (i : Z) : bool :=
  Z.testbit (byte_at buf (Z.to_nat (i / 8))) (i mod 8).

(** The loop of [BitStreamPutInt]: [while (bits > 0)].  Every iteration stores
    at least one bit, so [bits] iterations suffice.  [bitsToGet] is
    [std::min<size_t>(bits, 8 - bitOffset)]; [mask] is an [unsigned char]; the
    sum is formed in [uint64_t] and stored into an [unsigned char].  The code
    asserts that the bytes it touches lie inside the buffer; outside it the
    model reads 0 and stores nothing. *)
Fixpoint BitStreamPutInt_loop (fuel : nat) (ptr : list Z)
    (byteOffset bitOffset bits value : Z) : list Z :=
  match fuel with
  | O => ptr
  | S fuel' =>
      if bits >? 0 then
        let bitsToGet := Z.min bits (8 - bitOffset) in
        let mask := uint8 (Z.shiftl 1 bitsToGet - 1) in
        let old := byte_at ptr (Z.to_nat byteOffset) in
        let new :=
          uint8 (uint64 (Z.land old (Z.lnot (Z.shiftl mask bitOffset))
                         + Z.shiftl (Z.land value mask) bitOffset)) in
        BitStreamPutInt_loop fuel' (<[Z.to_nat byteOffset := new]> ptr)
          (byteOffset + 1) 0 (bits - bitsToGet) (Z.shiftr value bitsToGet)
      else ptr
  end.

(** [void BitStreamPutInt(char *dst, size_t dstlen, size_t offset,
    uint32_t bits, uint64_t value)]; [dstlen] is the length of [dst]. *)
Definition BitStreamPutInt (dst : list Z) (offset bits value : Z) : list Z :=
  BitStreamPutInt_loop (Z.to_nat bits) dst (offset / 8) (offset mod 8) bits value.

(** The loop of [BitStreamGetInt]. *)
Fixpoint BitStreamGetInt_loop (fuel : nat) (ptr : list Z)
    (byteOffset bitOffset shift bits result : Z) : Z :=
  match fuel with
  | O => result
  | S fuel' =>
      if bits >? 0 then
        let bitsToGet := Z.min bits (8 - bitOffset) in
        let mask := uint8 (Z.shiftl 1 bitsToGet - 1) in
        let result :=
          uint64 (result
                  + uint64 (Z.shiftl
                              (Z.land (Z.shiftr (byte_at ptr (Z.to_nat byteOffset))
                                                bitOffset) mask)
                              shift)) in
        BitStreamGetInt_loop fuel' ptr (byteOffset + 1) 0 (shift + bitsToGet)
          (bits - bitsToGet) result
      else result
  end.

(** [uint64_t BitStreamGetInt(const char *src, size_t srclen, size_t offset,
    uint32_t bits)] *)
Definition BitStreamGetInt (src : list Z) (offset bits : Z) : Z :=
  BitStreamGetInt_loop (Z.to_nat bits) src (offset / 8) (offset mod 8) 0 bits 0.

(** [void BitStreamPutInt(std::string *dst, size_t offset, uint32_t bits,
    uint64_t value)]: the bytes that hold the field are copied into a
    nine-byte buffer, written there at bit offset [offset % 8], and copied
    back.  The buffer is not initialised; the bytes not copied into it are
    named by [tmp_rest]. *)
Definition BitStreamPutInt_string (tmp_rest : Z) (dst : list Z)
    (offset bits value : Z) : list Z :=
  let kTmpBufLen := 9%nat in
  let kUsedBytes := Z.to_nat ((offset mod 8 + bits) / 8) in
  let base := Z.to_nat (offset / 8) in
  let tmpBuf :=
    map (fun idx => if (idx <=? kUsedBytes)%nat then byte_at dst (base + idx)
                    else tmp_rest) (seq 0 kTmpBufLen) in
  let tmpBuf := BitStreamPutInt tmpBuf (offset mod 8) bits value in
  fold_left (fun d idx => <[(base + idx)%nat := byte_at tmpBuf idx]> d)
            (seq 0 (S kUsedBytes)) dst.

End Coding.

(** ** util/hash *)

Module HashFn.
Import Coding.

(** A [char] read as an [int]: the signedness of plain [char] is the
    target's choice, [char_signed] says which. *)
Definition char_to_int (char_signed : bool) (c : Z) : Z :=
  if char_signed && (128 <=? c) then c - 256 else c.

(** The loop [while (data + 4 <= limit)] of [Hash]; [remaining] is [limit - data].
    Every iteration consumes four bytes. *)
Fixpoint Hash_words (fuel : nat) (data : list Z) (remaining h : Z) : list Z * Z * Z :=
  let m := 0xc6a4a793 in
  match fuel with
  | O => (data, remaining, h)
  | S fuel' =>
      if 4 <=? remaining then
        let w := DecodeFixed32 data in
        let h := uint32 (h + w) in
        let h := uint32 (h * m) in
        let h := Z.lxor h (Z.shiftr h 16) in
        Hash_words fuel' (drop 4 data) (remaining - 4) h
      else (data, remaining, h)
  end.

(** [uint32_t Hash(const char *data, size_t n, uint32_t seed)].  [data] holds
    the bytes from the pointer on; [n * m] is formed in [size_t] and the
    initial value is converted to [uint32_t].  The [switch] falls through from
    [case 3] to [case 1]. *)
Definition Hash (char_signed : bool) (data : list Z) (n seed : Z) : Z :=
  let m := 0xc6a4a793 in
  let r := 24 in
  let h := uint32 (Z.lxor seed (uint64 (n * m))) in
  let '(data, remaining, h) := Hash_words (Z.to_nat n) data n h in
  let mix3 h := uint32 (h + Z.shiftl (char_to_int char_signed (byte_at data 2)) 16) in
  let mix2 h := uint32 (h + Z.shiftl (char_to_int char_signed (byte_at data 1)) 8) in
  let mix1 h :=
    let h := uint32 (h + char_to_int char_signed (byte_at data 0)) in
    let h := uint32 (h * m) in
    Z.lxor h (Z.shiftr h r) in
  if remaining =? 3 then mix1 (mix2 (mix3 h))
  else if remaining =? 2 then mix1 (mix2 h)
  else if remaining =? 1 then mix1 h
  else h.

End HashFn.

(** ** util/arena *)

Module ArenaModel.

(** [constexpr int kBlockSize = 4096] *)
Definition kBlockSize : Z := 4096.

(** The members of [class Arena].  Pointers are addresses; [blocks_] is the
    vector of block addresses and [blocks_capacity] its [capacity()]. *)
Record Arena := mkArena {
  alloc_ptr_ : Z;
  alloc_bytes_remaining_ : Z;
  blocks_ : list Z;
  blocks_capacity : Z;
  blocks_memory_ : Z
}.

(** [Arena::Arena()]: a null [alloc_ptr_], nothing remaining, no block. *)
Definition Arena_new : Arena :=
  {| alloc_ptr_ := 0; alloc_bytes_remaining_ := 0; blocks_ := [];
     blocks_capacity := 0; blocks_memory_ := 0 |}.

(** [size_t MemoryUsage() const]: a pointer takes 8 bytes on the 64-bit target
    modelled here. *)
Definition MemoryUsage (a : Arena) : Z :=
  uint64 (blocks_memory_ a + uint64 (blocks_capacity a * 8)).

Section Environment.

(** What the arena takes from the C++ runtime: the address that the [k]-th
    [new char[n]] returns, and the capacity a full [std::vector] of capacity
    [c] grows to on [push_back]. *)
Variable operator_new : nat -> Z -> Z.
Variable vector_grow : Z -> Z.

(** [char *Arena::AllocateNewBlock(size_t bytes)] *)
Definition AllocateNewBlock (bytes : Z) (a : Arena) : Z * Arena :=
  let result := operator_new (length (blocks_ a)) bytes in
  (result,
   {| alloc_ptr_ := alloc_ptr_ a;
      alloc_bytes_remaining_ := alloc_bytes_remaining_ a;
      blocks_ := blocks_ a ++ [result];
      blocks_capacity :=
        if Z.of_nat (length (blocks_ a)) =? blocks_capacity a
        then vector_grow (blocks_capacity a) else blocks_capacity a;
      blocks_memory_ := uint64 (blocks_memory_ a + bytes) |}).

(** [char *Arena::AllocateFallback(size_t bytes)] *)
Definition AllocateFallback (bytes : Z) (a : Arena) : Z * Arena :=
  if bytes >? kBlockSize / 4 then
    AllocateNewBlock bytes a
  else
    let '(p, a) := AllocateNewBlock kBlockSize a in
    let result := p in
    (result,
     {| alloc_ptr_ := p + bytes;
        alloc_bytes_remaining_ := uint64 (kBlockSize - bytes);
        blocks_ := blocks_ a;
        blocks_capacity := blocks_capacity a;
        blocks_memory_ := blocks_memory_ a |}).

(** [inline char *Arena::Allocate(size_t bytes)]; [assert(bytes > 0)] is the
    caller's obligation. *)
Definition Allocate (bytes : Z) (a : Arena) : Z * Arena :=
  if bytes <=? alloc_bytes_remaining_ a then
    let result := alloc_ptr_ a in
    (result,
     {| alloc_ptr_ := alloc_ptr_ a + bytes;
        alloc_bytes_remaining_ := uint64 (alloc_bytes_remaining_ a - bytes);
        blocks_ := blocks_ a;
        blocks_capacity := blocks_capacity a;
        blocks_memory_ := blocks_memory_ a |})
  else AllocateFallback bytes a.

(** [char *Arena::AllocateAligned(size_t bytes)]; [align] is 8. *)
Definition AllocateAligned (bytes : Z) (a : Arena) : Z * Arena :=
  let align := 8 in
  let current_mod := Z.land (alloc_ptr_ a) (align - 1) in
  let slop := if current_mod =? 0 then 0 else align - current_mod in
  let needed := uint64 (bytes + slop) in
  if needed <=? alloc_bytes_remaining_ a then
    (alloc_ptr_ a + slop,
     {| alloc_ptr_ := alloc_ptr_ a + needed;
        alloc_bytes_remaining_ := uint64 (alloc_bytes_remaining_ a - needed);
        blocks_ := blocks_ a;
        blocks_capacity := blocks_capacity a;
        blocks_memory_ := blocks_memory_ a |})
  else AllocateFallback bytes a.

(** A request made of the arena. *)
Inductive request :=
  | ReqAllocate (bytes : Z)
  | ReqAllocateAligned (bytes : Z).

Definition request_bytes (r : request) : Z :=
  match r with ReqAllocate b => b | ReqAllocateAligned b => b end.

(** The arena after a request. *)
Definition serve (r : request) (a : Arena) : Arena :=
  match r with
  | ReqAllocate b => snd (Allocate b a)
  | ReqAllocateAligned b => snd (AllocateAligned b a)
  end.

(** The arena after a sequence of requests, first to last. *)
Definition serve_all (reqs : list request) (a : Arena) : Arena :=
  fold_left (fun a r => serve r a) reqs a.

(** The bytes requested by a sequence of requests. *)
Definition requested (reqs : list request) : Z :=
  fold_right (fun r acc => request_bytes r + acc) 0 reqs.

(** No [size_t] computation of the call wraps around: the padded size of the
    request, the block total after one more block for it, and the usage
    estimate afterwards all stay below [2^64]. *)
Definition call_fits (r : request) (a : Arena) : Prop :=
  0 < request_bytes r /\
  request_bytes r + 7 < 2 ^ 64 /\
  blocks_memory_ a + Z.max (request_bytes r) kBlockSize
    + 8 * blocks_capacity (serve r a) < 2 ^ 64.

Fixpoint calls_fit (reqs : list request) (a : Arena) : Prop :=
  match reqs with
  | [] => True
  | r :: reqs' => call_fits r a /\ calls_fit reqs' (serve r a)
  end.

End Environment.

(** What the arena keeps between calls, with [B] the bytes requested so far:
    the requests and the remainder lie inside the blocks, and the usage
    estimate has not wrapped around. *)
Definition accounted (B : Z) (a : Arena) : Prop :=
  0 <= B /\ 0 <= alloc_bytes_remaining_ a /\
  B + alloc_bytes_remaining_ a <= blocks_memory_ a /\
  0 <= blocks_capacity a /\
  blocks_memory_ a + 8 * blocks_capacity a < 2 ^ 64.

(** A runtime for examples: blocks at addresses that are multiples of 2^16,
    and a vector that doubles. *)
Definition example_new (k : nat) (bytes : Z) : Z := (Z.of_nat k + 1) * 65536.
Definition example_grow (c : Z) : Z := Z.max 1 (2 * c).

End ArenaModel.

(** ** leveldb/write_batch.h *)

Module WriteBatchModel.
Import Coding.

(** A record of a batch, as a handler receives it. *)
Inductive Update :=
  | UPut (key value : Slice)
  | UDelete (key : Slice)
  | UMerge (key value : Slice).

Section Tags.

(** The one-byte operation tags.  Their values are fixed in write_batch.cc,
    which is not under src/; they are taken as given. *)
Variables kTypeValue kTypeDeletion kTypeMerge : Z.

(** Modelled from the spec: write_batch.cc is missing.  The header of the
    serialized batch: a fixed-width 64-bit sequence number followed by a
    fixed-width 32-bit record count. *)
Definition kHeader : nat := 12.

(** Modelled from the spec: write_batch.cc is missing.  [WriteBatch()] and
    [Clear()] leave the buffer [rep_] with the header only. *)
Definition Clear (rep_ : list Z) : list Z := replicate kHeader 0.
Definition WriteBatch_new : list Z := Clear [].

(** Modelled from the spec: write_batch.cc is missing.  The record count in
    the header, read and written as a fixed-width 32-bit integer. *)
Definition Count (rep_ : list Z) : Z := DecodeFixed32 (drop 8 rep_).
Definition SetCount (rep_ : list Z) (n : Z) : list Z :=
  take 8 rep_ ++ EncodeFixed32 n ++ drop kHeader rep_.

(** Modelled from the spec: write_batch.cc is missing.  [Put], [Delete] and
    [Merge] count the record and append its tag, the length-prefixed key and,
    for [Put] and [Merge], the length-prefixed value. *)
Definition Put (rep_ : list Z) (key value : Slice) : list Z :=
  let rep_ := SetCount rep_ (uint32 (Count rep_ + 1)) in
  PutLengthPrefixedSlice (PutLengthPrefixedSlice (rep_ ++ [kTypeValue]) key) value.

Definition Delete (rep_ : list Z) (key : Slice) : list Z :=
  let rep_ := SetCount rep_ (uint32 (Count rep_ + 1)) in
  PutLengthPrefixedSlice (rep_ ++ [kTypeDeletion]) key.

Definition Merge (rep_ : list Z) (key value : Slice) : list Z :=
  let rep_ := SetCount rep_ (uint32 (Count rep_ + 1)) in
  PutLengthPrefixedSlice (PutLengthPrefixedSlice (rep_ ++ [kTypeMerge]) key) value.

(** [std::string Data() { return rep_; }] *)
Definition Data (rep_ : list Z) : list Z := rep_.

(** [WriteBatch(std::string rep) : rep_(rep) {}] *)
Definition WriteBatch_of (rep : list Z) : list Z := rep.

(** Modelled from the spec: write_batch.cc is missing.  The loop of
    [Iterate]: it takes the tag, then the length-prefixed key and value, and
    hands the record to the handler; the records handed over so far are
    listed.  [None] is the corruption status of a malformed record.  Every
    round consumes the tag byte at least. *)
Fixpoint Iterate_loop (fuel : nat) (input : Slice) : option (list Update) :=
  match fuel with
  | O => match input with [] => Some [] | _ => None end
  | S fuel' =>
      match input with
      | [] => Some []
      | tag :: input =>
          if tag =? kTypeValue then
            match GetLengthPrefixedSlice input [] with
            | (true, input, key) =>
                match GetLengthPrefixedSlice input [] with
                | (true, input, value) =>
                    cons (UPut key value) <$> Iterate_loop fuel' input
                | _ => None
                end
            | _ => None
            end
          else if tag =? kTypeDeletion then
            match GetLengthPrefixedSlice input [] with
            | (true, input, key) => cons (UDelete key) <$> Iterate_loop fuel' input
            | _ => None
            end
          else if tag =? kTypeMerge then
            match GetLengthPrefixedSlice input [] with
            | (true, input, key) =>
                match GetLengthPrefixedSlice input [] with
                | (true, input, value) =>
                    cons (UMerge key value) <$> Iterate_loop fuel' input
                | _ => None
                end
            | _ => None
            end
          else None
      end
  end.

(** Modelled from the spec: write_batch.cc is missing.  [Iterate] replays the
    records that follow the header. *)
Definition Iterate (rep_ : list Z) : option (list Update) :=
  let input := drop kHeader rep_ in
  Iterate_loop (length input) input.

(** One call of [Put], [Delete] or [Merge]. *)
Definition append (rep_ : list Z) (u : Update) : list Z :=
  match u with
  | UPut key value => Put rep_ key value
  | UDelete key => Delete rep_ key
  | UMerge key value => Merge rep_ key value
  end.

(** The bytes that one call appends behind the buffer: the tag and the
    length-prefixed key and value. *)
Definition record_bytes (u : Update) : list Z :=
  match u with
  | UPut key value =>
      PutLengthPrefixedSlice (PutLengthPrefixedSlice [kTypeValue] key) value
  | UDelete key => PutLengthPrefixedSlice [kTypeDeletion] key
  | UMerge key value =>
      PutLengthPrefixedSlice (PutLengthPrefixedSlice [kTypeMerge] key) value
  end.

(** A batch built by a sequence of calls on a fresh [WriteBatch]. *)
Definition build (us : list Update) : list Z := fold_left append us WriteBatch_new.

(** The key and value of a record have lengths a varint32 can hold. *)
Definition update_fits (u : Update) : Prop :=
  match u with
  | UPut key value => size key < 2 ^ 32 /\ size value < 2 ^ 32
  | UDelete key => size key < 2 ^ 32
  | UMerge key value => size key < 2 ^ 32 /\ size value < 2 ^ 32
  end.

End Tags.

End WriteBatchModel.

(** ** db/skiplist *)

Module SkipListModel.

(** [enum { kMaxHeight = 12 }] *)
Definition kMaxHeight : Z := 12.

(** The content of one [port::AtomicPointer] of a node.  A node lives in arena
    memory, which [new char[]] leaves indeterminate; [Ptr None] is [nullptr]
    and [Ptr (Some x)] points to the node allocated [x]-th. *)
Inductive slot :=
  | Indeterminate
  | Ptr (p : option nat).

(** The outcome of an operation: it returns, or it uses an indeterminate
    pointer or leaves a node's pointer array ([Fault], undefined behaviour in
    the code), or its search loop never ends ([Diverge]). *)
Inductive result (A : Type) :=
  | Ok (a : A)
  | Fault
  | Diverge.
Arguments Ok {A} a.
Arguments Fault {A}.
Arguments Diverge {A}.

Definition bind {A B : Type} (m : result A) (f : A -> result B) : result B :=
  match m with
  | Ok a => f a
  | Fault => Fault
  | Diverge => Diverge
  end.

Notation "'let*' x := m 'in' k" := (bind m (fun x => k))
  (at level 10, x name, m at level 100, k at level 200).
Notation "'let*' ' p := m 'in' k" := (bind m (fun x => let 'p := x in k))
  (at level 10, p pattern, m at level 100, k at level 200).

Section Generic.

(** The template parameters: the key type and the comparator, which returns a
    negative number, zero or a positive number. *)
Context {Key : Type}.
Variable compare_ : Key -> Key -> Z.

(** The key of the head node, [Key(0)]. *)
Variable key0 : Key.

(** [Random] (util/random.h, not under src/): a generator state and
    [Next()], which returns a [uint32_t] and the next state. *)
Context {Random : Type}.
Variable Random_Next : Random -> Z * Random.

(** What [AtomicPointer() {}] leaves in [rep_]: [std::atomic]'s default
    constructor initialises the value to [nullptr] from C++20 on and leaves
    it indeterminate before. *)
Variable atomic_value_init : bool.
Definition default_rep : slot :=
  if atomic_value_init then Ptr None else Indeterminate.

(** [struct Node]: the key and the array [next_], whose length is the height
    the node was allocated with. *)
Record Node := mkNode { key : Key; next_ : list slot }.

(** The members of [class SkipList]; [nodes] is the arena memory holding the
    nodes in allocation order, and a [Node*] is an index into it. *)
Record SkipList := mkSkipList {
  nodes : list Node;
  max_height_ : Z;
  prev_ : list nat;
  rnd_ : Random
}.

(** [head_] is the first node allocated. *)
Definition head_ : nat := 0%nat.

Definition with_nodes (s : SkipList) (ns : list Node) : SkipList :=
  mkSkipList ns (max_height_ s) (prev_ s) (rnd_ s).
Definition with_prev (s : SkipList) (p : list nat) : SkipList :=
  mkSkipList (nodes s) (max_height_ s) p (rnd_ s).

(** [prev_[i]] *)
Definition prev_at (s : SkipList) (i : nat) : nat := default head_ (prev_ s !! i).

(** [inline int GetMaxHeight() const] *)
Definition GetMaxHeight (s : SkipList) : Z := max_height_ s.

(** [Node *Next(int n)] and [Node *NoBarrier_Next(int n)]: the loads differ in
    their memory order only. *)
Definition Next (s : SkipList) (x : nat) (n : Z) : result (option nat) :=
  match nodes s !! x with
  | Some nd =>
      match next_ nd !! Z.to_nat n with
      | Some (Ptr p) => Ok p
      | _ => Fault
      end
  | None => Fault
  end.
Definition NoBarrier_Next := Next.

(** [void SetNext(int n, Node *x)] and [void NoBarrier_SetNext(int n, Node *x)] *)
Definition SetNext (s : SkipList) (x : nat) (n : Z) (v : option nat)
  : result SkipList :=
  match nodes s !! x with
  | Some nd =>
      if (Z.to_nat n <? length (next_ nd))%nat then
        Ok (with_nodes s
              (<[x := mkNode (key nd) (<[Z.to_nat n := Ptr v]> (next_ nd))]> (nodes s)))
      else Fault
  | None => Fault
  end.
Definition NoBarrier_SetNext := SetNext.

(** [Node *NewNode(const Key &key, int height)]: the node is placed in fresh
    arena memory; the constructor builds the key and the one-element array
    member [next_[1]], the pointers above it are left as the arena gave
    them. *)
Definition NewNode (s : SkipList) (k : Key) (height : Z) : nat * SkipList :=
  (length (nodes s),
   with_nodes s
     (nodes s ++ [mkNode k (default_rep :: replicate (Z.to_nat (height - 1)) Indeterminate)])).

(** The constructor: the head node of height [kMaxHeight] with every pointer
    set to [nullptr], [max_height_] 1, every [prev_[i]] the head, and the
    generator [rnd0], which is [Random(0xdeadbeef)]. *)
Definition SkipList_new (rnd0 : Random) : SkipList :=
  mkSkipList [mkNode key0 (replicate (Z.to_nat kMaxHeight) (Ptr None))]
             1 (replicate (Z.to_nat kMaxHeight) head_) rnd0.

(** The loop of [RandomHeight]:
    [while (height < kMaxHeight && ((rnd_.Next() & kBranching) == 0)) height++]. *)
Fixpoint RandomHeight_loop (fuel : nat) (height : Z) (rnd : Random) : Z * Random :=
  let kBranching := 4 in
  match fuel with
  | O => (height, rnd)
  | S fuel' =>
      if height <? kMaxHeight then
        let '(r, rnd) := Random_Next rnd in
        if Z.land r kBranching =? 0 then RandomHeight_loop fuel' (height + 1) rnd
        else (height, rnd)
      else (height, rnd)
  end.

(** [int RandomHeight()]: the height and the generator afterwards.  The height
    starts at 1 and the loop stops at [kMaxHeight], so [kMaxHeight] rounds
    are enough. *)
Definition RandomHeight (rnd : Random) : Z * Random :=
  RandomHeight_loop (Z.to_nat kMaxHeight) 1 rnd.

(** The height as the specification words it: the loop goes on while the draw
    modulo the branching factor is zero. *)
Fixpoint RandomHeight_spec_loop (fuel : nat) (height : Z) (rnd : Random) : Z * Random :=
  let kBranching := 4 in
  match fuel with
  | O => (height, rnd)
  | S fuel' =>
      if height <? kMaxHeight then
        let '(r, rnd) := Random_Next rnd in
        if r mod kBranching =? 0 then RandomHeight_spec_loop fuel' (height + 1) rnd
        else (height, rnd)
      else (height, rnd)
  end.
Definition RandomHeight_spec (rnd : Random) : Z * Random :=
  RandomHeight_spec_loop (Z.to_nat kMaxHeight) 1 rnd.

(** [bool Equal(const Key &a, const Key &b) const] *)
Definition Equal (a b : Key) : bool := compare_ a b =? 0.

(** [bool KeyIsAfterNode(const Key &key, Node *n) const] *)
Definition KeyIsAfterNode (s : SkipList) (k : Key) (n : option nat) : result bool :=
  match n with
  | None => Ok false
  | Some x =>
      match nodes s !! x with
      | Some nd => Ok (compare_ (key nd) k <? 0)
      | None => Fault
      end
  end.

(** The search loops visit a pair of a node and a level in every round and
    change nothing they read, so a loop that makes more rounds than there are
    such pairs never ends. *)
Definition search_fuel (s : SkipList) : nat :=
  S (length (nodes s) * Z.to_nat kMaxHeight).

(** The [while (true)] loop of [FindGreatOrEqual]; [prev] says whether the
    caller passed [prev_] or [nullptr]. *)
Fixpoint FindGreatOrEqual_loop (fuel : nat) (s : SkipList) (k : Key) (prev : bool)
    (x : nat) (level : Z) : result (option nat * SkipList) :=
  match fuel with
  | O => Diverge
  | S fuel' =>
      let* next := Next s x level in
      let* after := KeyIsAfterNode s k next in
      if after then
        FindGreatOrEqual_loop fuel' s k prev (default head_ next) level
      else
        let s := if prev then with_prev s (<[Z.to_nat level := x]> (prev_ s)) else s in
        if level =? 0 then Ok (next, s)
        else FindGreatOrEqual_loop fuel' s k prev x (level - 1)
  end.

(** [Node *FindGreatOrEqual(const Key &key, Node **prev) const]: the shortcut
    through [prev[0]], then the search from the head. *)
Definition FindGreatOrEqual (s : SkipList) (k : Key) (prev : bool)
  : result (option nat * SkipList) :=
  let* shortcut :=
    (if prev then
       let* n0 := Next s (prev_at s 0) 0 in
       let* after := KeyIsAfterNode s k n0 in
       if negb after then
         let x := prev_at s 0 in
         let* next := Next s x 0 in
         if (x =? head_)%nat then Ok (Some next)
         else
           let* after_x := KeyIsAfterNode s k (Some x) in
           Ok (if after_x then Some next else None)
       else Ok None
     else Ok None) in
  match shortcut with
  | Some next => Ok (next, s)
  | None => FindGreatOrEqual_loop (search_fuel s) s k prev head_ (GetMaxHeight s - 1)
  end.

(** The loop of [FindLessThan]; its [assert] is not modelled. *)
Fixpoint FindLessThan_loop (fuel : nat) (s : SkipList) (k : Key)
    (x : nat) (level : Z) : result nat :=
  match fuel with
  | O => Diverge
  | S fuel' =>
      let* next := Next s x level in
      match next with
      | None =>
          if level =? 0 then Ok x else FindLessThan_loop fuel' s k x (level - 1)
      | Some n =>
          match nodes s !! n with
          | None => Fault
          | Some nd =>
              if compare_ (key nd) k >=? 0 then
                if level =? 0 then Ok x else FindLessThan_loop fuel' s k x (level - 1)
              else FindLessThan_loop fuel' s k n level
          end
      end
  end.

(** [Node *FindLessThan(const Key &key) const] *)
Definition FindLessThan (s : SkipList) (k : Key) : result nat :=
  FindLessThan_loop (search_fuel s) s k head_ (GetMaxHeight s - 1).

(** The loop of [FindLast]. *)
Fixpoint FindLast_loop (fuel : nat) (s : SkipList) (x : nat) (level : Z)
  : result nat :=
  match fuel with
  | O => Diverge
  | S fuel' =>
      let* next := Next s x level in
      match next with
      | None => if level =? 0 then Ok x else FindLast_loop fuel' s x (level - 1)
      | Some n => FindLast_loop fuel' s n level
      end
  end.

(** [Node *FindLast() const] *)
Definition FindLast (s : SkipList) : result nat :=
  FindLast_loop (search_fuel s) s head_ (GetMaxHeight s - 1).

(** The loop [for (int i = GetMaxHeight(); i < height; i++) prev_[i] = head_]. *)
Definition raise_prev (s : SkipList) (height : Z) : list nat :=
  fold_left (fun p i => <[i := head_]> p)
            (seq (Z.to_nat (GetMaxHeight s)) (Z.to_nat (height - GetMaxHeight s)))
            (prev_ s).

(** [x->NoBarrier_Next(p)] called with a [Node *] where the level is expected,
    as the first statement of the loop of [Insert] does; what it loads is
    dropped.  The pointer is taken as the [int] level: [nullptr] is level 0,
    a load of [next_[0]], which every node has, whatever it holds; the address
    of a node is no level of the node, and the load leaves its array. *)
Definition NoBarrier_Next_dropped (s : SkipList) (x : nat) (p : option nat)
  : result unit :=
  match p with
  | None =>
      match nodes s !! x with
      | Some nd => if (0 <? length (next_ nd))%nat then Ok tt else Fault
      | None => Fault
      end
  | Some _ => Fault
  end.

(** The loop over the levels of [Insert]:
    [x->NoBarrier_Next(prev_[i]->NoBarrier_Next(i)); prev_[i]->SetNext(i, x);].
    The first statement loads the successor of the predecessor and passes it
    to [NoBarrier_Next], a load, where a store into the new node would be
    expected: nothing is stored into [x], and only the store of the second
    statement changes the list. *)
Fixpoint Insert_link (levels : list nat) (s : SkipList) (x : nat)
  : result SkipList :=
  match levels with
  | [] => Ok s
  | i :: levels' =>
      let* p := NoBarrier_Next s (prev_at s i) (Z.of_nat i) in
      let* dropped := NoBarrier_Next_dropped s x p in
      let* s := SetNext s (prev_at s i) (Z.of_nat i) (Some x) in
      Insert_link levels' s x
  end.

(** [Insert] from the height on: [max_height_] and [prev_] are raised, the
    node is made and linked, and [prev_[0]] becomes the node. *)
Definition Insert_at (s : SkipList) (k : Key) (height : Z) (rnd : Random)
  : result SkipList :=
  let s := mkSkipList (nodes s) (max_height_ s) (prev_ s) rnd in
  let s :=
    if height >? GetMaxHeight s then
      mkSkipList (nodes s) height (raise_prev s height) (rnd_ s)
    else s in
  let '(x, s) := NewNode s k height in
  let* s := Insert_link (seq 0 (Z.to_nat height)) s x in
  Ok (with_prev s (<[0%nat := x]> (prev_ s))).

(** [void Insert(const Key &key)] *)
Definition Insert (s : SkipList) (k : Key) : result SkipList :=
  let* ' (_, s) := FindGreatOrEqual s k true in
  let '(height, rnd) := RandomHeight (rnd_ s) in
  Insert_at s k height rnd.

(** [bool Contains(const Key &key)] *)
Definition Contains (s : SkipList) (k : Key) : result bool :=
  let* ' (x, _) := FindGreatOrEqual s k false in
  match x with
  | None => Ok false
  | Some n =>
      match nodes s !! n with
      | Some nd => Ok (Equal k (key nd))
      | None => Fault
      end
  end.

(** A sequence of [Insert] calls, first to last. *)
Fixpoint Insert_all (s : SkipList) (ks : list Key) : result SkipList :=
  match ks with
  | [] => Ok s
  | k :: ks' => let* s := Insert s k in Insert_all s ks'
  end.

(** A pointer that is set and not null leads to a node of the list other than
    the head. *)
Definition pointers_valid (ns : list Node) : Prop :=
  forall x nd i p,
    ns !! x = Some nd -> next_ nd !! i = Some (Ptr (Some p)) ->
    (1 <= p < length ns)%nat.

(** What every list reached from a new one satisfies: its pointers are valid,
    the entries of [prev_] are nodes of the list, and [max_height_] is between
    1 and [kMaxHeight]. *)
Definition well_formed (s : SkipList) : Prop :=
  pointers_valid (nodes s)
  /\ Forall (fun x => (x < length (nodes s))%nat) (prev_ s)
  /\ length (prev_ s) = Z.to_nat kMaxHeight
  /\ 1 <= max_height_ s <= kMaxHeight
  /\ (0 < length (nodes s))%nat.

(** The state of a search next to the list [s0] it started on: only [prev_]
    may differ, and it holds nodes of the list. *)
Definition same_core (s0 s : SkipList) : Prop :=
  nodes s = nodes s0 /\ max_height_ s = max_height_ s0 /\ rnd_ s = rnd_ s0
  /\ length (prev_ s) = length (prev_ s0)
  /\ Forall (fun x => (x < length (nodes s0))%nat) (prev_ s).

End Generic.

(** An integer comparator and a generator that replays a list of draws (and
    draws 0 once the list is used up), for examples. *)
Definition compare_Z (a b : Z) : Z :=
  if a <? b then -1 else if b <? a then 1 else 0.
Definition replay_Next (draws : list Z) : Z * list Z :=
  match draws with
  | [] => (0, [])
  | r :: draws' => (r, draws')
  end.

End SkipListModel.

(** * Properties *)

(** ** Tactics for machine arithmetic *)

Ltac dlia := Z.div_mod_to_equations; lia.

Ltac zbits :=
  Z.bitblast;
  repeat match goal with
         | |- context [?a =? ?b] => destruct (Z.eqb_spec a b)
         end;
  repeat match goal with
         | |- context [Z.testbit ?a ?n] => rewrite (Z.testbit_neg_r a n) by lia
         end;
  try lia; try btauto.

(** ** util/coding: varints *)

Section VarintFacts.
Import Coding.

Lemma uint8_small (x : Z) : 0 <= x < 256 -> uint8 x = x.
Proof. intros H. unfold uint8. apply Z.mod_small. lia. Qed.

Lemma continuation_byte (x : Z) :
  uint8 (Z.lor (Z.land x (128 - 1)) 128) = Z.lor (Z.land x 127) 128.
Proof.
  unfold uint8. change (128 - 1) with (Z.ones 7). change 127 with (Z.ones 7).
  change 128 with (2 ^ 7). zbits.
Qed.

Lemma continuation_byte32 (x : Z) :
  uint8 (Z.lor x 128) = Z.lor (Z.land x 127) 128.
Proof.
  unfold uint8. change 127 with (Z.ones 7).
  change 128 with (2 ^ 7). zbits.
Qed.

Lemma continuation_flag (x : Z) : Z.land (Z.lor (Z.land x 127) 128) 128 =? 0 = false.
Proof.
  apply Z.eqb_neq. intros H.
  apply (f_equal (fun z => Z.testbit z 7)) in H.
  rewrite Z.land_spec, Z.lor_spec in H. simpl in H. rewrite orb_true_r in H. discriminate.
Qed.

Lemma continuation_payload (x : Z) : Z.land (Z.lor (Z.land x 127) 128) 127 = Z.land x 127.
Proof. change 127 with (Z.ones 7). change 128 with (2 ^ 7). zbits. Qed.

Lemma last_flag (x : Z) : 0 <= x < 128 -> Z.land x 128 =? 0 = true.
Proof.
  intros H. apply Z.eqb_eq. change 128 with (2 ^ 7). 
  apply Z.bits_inj'; intros i Hi. rewrite Z.land_spec, Z.pow2_bits_eqb, Z.bits_0 by lia.
  destruct (Z.eqb_spec 7 i); [subst|apply andb_false_r].
  rewrite (Z.bits_above_log2 x 7); [reflexivity|lia|].
  destruct (Z.eq_dec x 0); [subst; simpl; lia|]. apply Z.log2_lt_pow2; lia.
Qed.

Lemma shiftr7_lt (v k : Z) : 0 <= k -> 0 <= v < 2 ^ (k + 7) -> 0 <= Z.shiftr v 7 < 2 ^ k.
Proof.
  intros Hk [H0 H1]. rewrite Z.shiftr_div_pow2 by lia. split.
  - apply Z.div_pos; lia.
  - apply Z.div_lt_upper_bound; [lia|]. rewrite <- Z.pow_add_r by lia. now rewrite Z.add_comm.
Qed.

Lemma lor_shift_step (r v s : Z) : 0 <= s ->
  Z.lor (Z.lor r (Z.shiftl (Z.land v 127) s)) (Z.shiftl (Z.shiftr v 7) (s + 7)) = Z.lor r (Z.shiftl v s).
Proof. intros. change 127 with (Z.ones 7). zbits. Qed.


Lemma shiftl_lt (v s k : Z) : 0 <= s -> 0 <= v < 2 ^ k -> 0 <= k -> 0 <= Z.shiftl v s < 2 ^ (k + s).
Proof.
  intros Hs Hv Hk. rewrite Z.shiftl_mul_pow2 by lia. rewrite Z.pow_add_r by lia.
  split; [apply Z.mul_nonneg_nonneg; lia|]. apply Z.mul_lt_mono_pos_r; lia.
Qed.

Lemma land127_range (v : Z) : 0 <= Z.land v 127 < 128.
Proof.
  change 127 with (Z.ones 7). rewrite Z.land_ones by lia. apply Z.mod_pos_bound. lia.
Qed.

Lemma decode64_encode (fuel : nat) : forall v shift result rest,
  0 <= v < 2 ^ (7 * (Z.of_nat fuel + 1)) ->
  0 <= shift <= 63 -> v < 2 ^ (64 - shift) ->
  GetVarint64Ptr_loop shift result (EncodeVarint64_loop fuel v ++ rest)
  = Some (Z.lor result (Z.shiftl v shift), rest).
Proof.
  assert (Hlast : forall v shift result rest, 0 <= v < 128 -> 0 <= shift <= 63 ->
            v < 2 ^ (64 - shift) ->
            GetVarint64Ptr_loop shift result ([uint8 v] ++ rest)
            = Some (Z.lor result (Z.shiftl v shift), rest)).
  { intros v shift result rest Hv Hs Hb. simpl.
    destruct (Z.leb_spec shift 63); [|lia].
    rewrite uint8_small by lia. rewrite last_flag by lia. simpl.
    unfold uint64. rewrite Z.mod_small; [reflexivity|].
    pose proof (shiftl_lt v shift (64 - shift)) as P.
    replace (64 - shift + shift) with 64 in P by lia. apply P; lia. }
  induction fuel as [|fuel IH]; intros v shift result rest Hv Hs Hb.
  - apply Hlast; assumption.
  - cbn [EncodeVarint64_loop]. destruct (Z.geb_spec v 128) as [Hge|Hlt].
    + rewrite continuation_byte. rewrite <- app_comm_cons.
      cbn [GetVarint64Ptr_loop]. destruct (Z.leb_spec shift 63); [|lia].
      rewrite continuation_flag, continuation_payload. cbn [negb].
      assert (Hsh : shift + 7 <= 63).
      { destruct (Z.le_gt_cases (shift + 7) 63) as [|Hgt]; [assumption|].
        exfalso. assert (2 ^ (64 - shift) <= 2 ^ 7) by (apply Z.pow_le_mono_r; lia). lia. }
      rewrite IH.
      * f_equal. f_equal. unfold uint64. rewrite Z.mod_small.
        -- apply lor_shift_step. lia.
        -- pose proof (shiftl_lt (Z.land v 127) shift 7) as P.
           pose proof (land127_range v).
           assert (2 ^ (7 + shift) <= 2 ^ 64) by (apply Z.pow_le_mono_r; lia).
           lia.
      * apply shiftr7_lt; [lia|]. replace (7 * (Z.of_nat fuel + 1) + 7) with (7 * (Z.of_nat (S fuel) + 1)) by lia. lia.
      * lia.
      * apply (shiftr7_lt v (64 - (shift + 7))); [lia|]. replace (64 - (shift + 7) + 7) with (64 - shift) by lia. lia.
    + apply Hlast; try assumption. lia.
Qed.

Lemma decode32_encode (fuel : nat) : forall v shift result rest,
  0 <= v < 2 ^ (7 * (Z.of_nat fuel + 1)) ->
  0 <= shift <= 28 -> shift mod 7 = 0 -> v < 2 ^ (32 - shift) ->
  GetVarint32PtrFallback_loop shift result (EncodeVarint64_loop fuel v ++ rest)
  = Some (Z.lor result (Z.shiftl v shift), rest).
Proof.
  assert (Hlast : forall v shift result rest, 0 <= v < 128 -> 0 <= shift <= 28 ->
            v < 2 ^ (32 - shift) ->
            GetVarint32PtrFallback_loop shift result ([uint8 v] ++ rest)
            = Some (Z.lor result (Z.shiftl v shift), rest)).
  { intros v shift result rest Hv Hs Hb. simpl.
    destruct (Z.leb_spec shift 28); [|lia].
    rewrite uint8_small by lia. rewrite last_flag by lia. simpl.
    unfold uint32. rewrite Z.mod_small; [reflexivity|].
    pose proof (shiftl_lt v shift (32 - shift)) as P.
    replace (32 - shift + shift) with 32 in P by lia. apply P; lia. }
  induction fuel as [|fuel IH]; intros v shift result rest Hv Hs Hm Hb.
  - apply Hlast; assumption.
  - cbn [EncodeVarint64_loop]. destruct (Z.geb_spec v 128) as [Hge|Hlt].
    + rewrite continuation_byte. rewrite <- app_comm_cons.
      cbn [GetVarint32PtrFallback_loop]. destruct (Z.leb_spec shift 28); [|lia].
      rewrite continuation_flag, continuation_payload. cbn [negb].
      assert (Hsh : shift + 7 <= 28).
      { destruct (Z.le_gt_cases (shift + 7) 28) as [|Hgt]; [assumption|].
        exfalso. assert (2 ^ (32 - shift) <= 2 ^ 7) by (apply Z.pow_le_mono_r; dlia). lia. }
      rewrite IH.
      * f_equal. f_equal. unfold uint32. rewrite Z.mod_small.
        -- apply lor_shift_step. lia.
        -- pose proof (shiftl_lt (Z.land v 127) shift 7) as P.
           pose proof (land127_range v).
           assert (2 ^ (7 + shift) <= 2 ^ 32) by (apply Z.pow_le_mono_r; lia).
           lia.
      * apply shiftr7_lt; [lia|]. replace (7 * (Z.of_nat fuel + 1) + 7) with (7 * (Z.of_nat (S fuel) + 1)) by lia. lia.
      * lia.
      * dlia.
      * apply (shiftr7_lt v (32 - (shift + 7))); [lia|]. replace (32 - (shift + 7) + 7) with (32 - shift) by lia. lia.
    + apply Hlast; try assumption. lia.
Qed.

Lemma EncodeVarint32_as_loop (v : Z) : is_uint32 v ->
  EncodeVarint32 v = EncodeVarint64_loop 64 v.
Proof.
  unfold is_uint32. intros Hv. unfold EncodeVarint32.
  change (Z.shiftl 1 7) with 128. change (Z.shiftl 1 14) with 16384.
  change (Z.shiftl 1 21) with 2097152. change (Z.shiftl 1 28) with 268435456.
  assert (H7 : Z.shiftr v 7 = v / 128) by (now rewrite Z.shiftr_div_pow2 by lia).
  assert (H14 : Z.shiftr v 14 = v / 16384) by (now rewrite Z.shiftr_div_pow2 by lia).
  assert (H21 : Z.shiftr v 21 = v / 2097152) by (now rewrite Z.shiftr_div_pow2 by lia).
  assert (H28 : Z.shiftr v 28 = v / 268435456) by (now rewrite Z.shiftr_div_pow2 by lia).
  assert (S14 : Z.shiftr (Z.shiftr v 7) 7 = Z.shiftr v 14) by (now rewrite Z.shiftr_shiftr by lia).
  assert (S21 : Z.shiftr (Z.shiftr v 14) 7 = Z.shiftr v 21) by (now rewrite Z.shiftr_shiftr by lia).
  assert (S28 : Z.shiftr (Z.shiftr v 21) 7 = Z.shiftr v 28) by (now rewrite Z.shiftr_shiftr by lia).
  cbv zeta.
  destruct (Z.ltb_spec v 128).
  { cbn [EncodeVarint64_loop]. destruct (Z.geb_spec v 128); [dlia|reflexivity]. }
  cbn [EncodeVarint64_loop]. destruct (Z.geb_spec v 128); [|dlia].
  rewrite continuation_byte, continuation_byte32.
  destruct (Z.ltb_spec v 16384).
  { destruct (Z.geb_spec (Z.shiftr v 7) 128); [dlia|reflexivity]. }
  destruct (Z.geb_spec (Z.shiftr v 7) 128); [|dlia].
  rewrite continuation_byte, continuation_byte32, S14.
  destruct (Z.ltb_spec v 2097152).
  { destruct (Z.geb_spec (Z.shiftr v 14) 128); [dlia|reflexivity]. }
  destruct (Z.geb_spec (Z.shiftr v 14) 128); [|dlia].
  rewrite continuation_byte, continuation_byte32, S21.
  destruct (Z.ltb_spec v 268435456).
  { destruct (Z.geb_spec (Z.shiftr v 21) 128); [dlia|reflexivity]. }
  destruct (Z.geb_spec (Z.shiftr v 21) 128); [|dlia].
  rewrite continuation_byte, continuation_byte32, S28.
  destruct (Z.geb_spec (Z.shiftr v 28) 128); [dlia|reflexivity].
Qed.

Lemma VarintLength_loop_length (fuel : nat) : forall v len,
  VarintLength_loop fuel v len = len + Z.of_nat (length (EncodeVarint64_loop fuel v)) - 1.
Proof.
  induction fuel as [|fuel IH]; intros v len; cbn [VarintLength_loop EncodeVarint64_loop].
  - simpl. lia.
  - destruct (Z.geb_spec v 128).
    + rewrite IH. cbn [length]. lia.
    + simpl. lia.
Qed.

Lemma EncodeVarint64_loop_length_le (k : nat) : forall fuel v,
  0 <= v < 2 ^ (7 * (Z.of_nat k + 1)) ->
  (length (EncodeVarint64_loop fuel v) <= S k)%nat.
Proof.
  induction k as [|k IH]; intros fuel v Hv.
  - destruct fuel; cbn [EncodeVarint64_loop]; [simpl; lia|].
    destruct (Z.geb_spec v 128); [|simpl; lia]. simpl in Hv. lia.
  - destruct fuel; cbn [EncodeVarint64_loop]; [simpl; lia|].
    destruct (Z.geb_spec v 128); [|simpl; lia].
    cbn [length]. apply le_n_S, IH.
    apply shiftr7_lt; [lia|].
    replace (7 * (Z.of_nat k + 1) + 7) with (7 * (Z.of_nat (S k) + 1)) by lia. lia.
Qed.

Lemma GetVarint64Ptr_EncodeVarint64 (v : Z) (rest : list Z) : is_uint64 v ->
  GetVarint64Ptr (EncodeVarint64 v ++ rest) = Some (v, rest).
Proof.
  unfold is_uint64. intros Hv. unfold GetVarint64Ptr, EncodeVarint64.
  rewrite decode64_encode.
  - now rewrite Z.shiftl_0_r, Z.lor_0_l.
  - assert (2 ^ 64 <= 2 ^ (7 * (Z.of_nat 64 + 1))) by (apply Z.pow_le_mono_r; lia). lia.
  - lia.
  - simpl. lia.
Qed.

Lemma GetVarint32Ptr_EncodeVarint32 (v : Z) (rest : list Z) : is_uint32 v ->
  GetVarint32Ptr (EncodeVarint32 v ++ rest) = Some (v, rest).
Proof.
  intros Hv. destruct (Z.ltb_spec v 128) as [Hlt|Hge].
  - unfold is_uint32 in Hv. unfold EncodeVarint32.
    change (Z.shiftl 1 7) with 128. cbv zeta.
    destruct (Z.ltb_spec v 128); [|lia].
    rewrite uint8_small by lia. cbn [app]. unfold GetVarint32Ptr.
    now rewrite last_flag by lia.
  - assert (Hfb : GetVarint32PtrFallback (EncodeVarint64_loop 64 v ++ rest) = Some (v, rest)).
    { unfold is_uint32 in Hv. unfold GetVarint32PtrFallback. rewrite decode32_encode.
      - now rewrite Z.shiftl_0_r, Z.lor_0_l.
      - assert (2 ^ 32 <= 2 ^ (7 * (Z.of_nat 64 + 1))) by (apply Z.pow_le_mono_r; lia). lia.
      - lia.
      - reflexivity.
      - simpl. lia. }
    rewrite EncodeVarint32_as_loop by assumption.
    revert Hfb.
    change (EncodeVarint64_loop 64 v) with
      (if v >=? 128 then uint8 (Z.lor (Z.land v (128 - 1)) 128) :: EncodeVarint64_loop 63 (Z.shiftr v 7)
       else [uint8 v]).
    destruct (Z.geb_spec v 128); [|lia].
    rewrite continuation_byte, <- app_comm_cons. intros Hfb.
    unfold GetVarint32Ptr. now rewrite continuation_flag.
Qed.

(** C4: for every uint32 value, decoding the bytes of [EncodeVarint32] with
    [GetVarint32Ptr] and any bytes behind them yields the value and the rest,
    the number of bytes written is [VarintLength], at most 5; likewise for
    every uint64 value with [EncodeVarint64] and [GetVarint64Ptr], at most 10
    bytes; and 300 is encoded as the two bytes 0xAC, 0x02. *)
Theorem varint_round_trip (v32 v64 : Z) (rest : list Z) :
  is_uint32 v32 -> is_uint64 v64 ->
  (GetVarint32Ptr (EncodeVarint32 v32 ++ rest) = Some (v32, rest)
   /\ Z.of_nat (length (EncodeVarint32 v32)) = VarintLength v32
   /\ VarintLength v32 <= 5)
  /\ (GetVarint64Ptr (EncodeVarint64 v64 ++ rest) = Some (v64, rest)
      /\ Z.of_nat (length (EncodeVarint64 v64)) = VarintLength v64
      /\ VarintLength v64 <= 10)
  /\ EncodeVarint32 300 = [0xAC; 0x02].
Proof.
  intros H32 H64. split; [|split].
  - split; [now apply GetVarint32Ptr_EncodeVarint32|].
    rewrite EncodeVarint32_as_loop by assumption.
    unfold VarintLength. rewrite VarintLength_loop_length. split; [lia|].
    pose proof (EncodeVarint64_loop_length_le 4 64 v32) as L.
    unfold is_uint32 in H32. simpl Z.of_nat in L.
    assert (2 ^ 32 <= 2 ^ (7 * (4 + 1))) by (apply Z.pow_le_mono_r; lia). lia.
  - split; [now apply GetVarint64Ptr_EncodeVarint64|].
    unfold EncodeVarint64, VarintLength. rewrite VarintLength_loop_length. split; [lia|].
    pose proof (EncodeVarint64_loop_length_le 9 64 v64) as L.
    unfold is_uint64 in H64. simpl Z.of_nat in L.
    assert (2 ^ 64 <= 2 ^ (7 * (9 + 1))) by (apply Z.pow_le_mono_r; lia). lia.
  - reflexivity.
Qed.

Lemma varint_round_trip_witness :
  (GetVarint32Ptr (EncodeVarint32 300 ++ [7]) = Some (300, [7])
   /\ Z.of_nat (length (EncodeVarint32 300)) = VarintLength 300
   /\ VarintLength 300 <= 5)
  /\ (GetVarint64Ptr (EncodeVarint64 (2 ^ 64 - 1) ++ [7]) = Some (2 ^ 64 - 1, [7])
      /\ Z.of_nat (length (EncodeVarint64 (2 ^ 64 - 1))) = VarintLength (2 ^ 64 - 1)
      /\ VarintLength (2 ^ 64 - 1) <= 10)
  /\ EncodeVarint32 300 = [0xAC; 0x02].
Proof.
  apply (varint_round_trip 300 (2 ^ 64 - 1) [7]); unfold is_uint32, is_uint64; lia.
Defined.

End VarintFacts.

(** ** util/coding: failing decodes *)

Section DecodeFailure.
Import Coding.

Lemma GetVarint32PtrFallback_loop_fails (n : nat) : forall shift result p,
  shift = 35 - 7 * Z.of_nat n -> (n <= 5)%nat ->
  GetVarint32PtrFallback_loop shift result p = None
  <-> Forall (fun b => Z.land b 128 <> 0) (take n p).
Proof.
  induction n as [|n IH]; intros shift result p Hs Hn.
  - destruct p; cbn [GetVarint32PtrFallback_loop take];
      (destruct (Z.leb_spec shift 28); [lia|]); split; auto.
  - destruct p as [|b p]; cbn [GetVarint32PtrFallback_loop take];
      (destruct (Z.leb_spec shift 28); [|lia]).
    + split; auto.
    + destruct (Z.eqb_spec (Z.land b 128) 0) as [E|E]; cbn [negb].
      * split; [discriminate|]. intros HF. inversion HF; subst. contradiction.
      * rewrite IH by lia. split; [intros HF; constructor; assumption|].
        intros HF. now inversion HF.
Qed.

Lemma GetVarint64Ptr_loop_fails (n : nat) : forall shift result p,
  shift = 70 - 7 * Z.of_nat n -> (n <= 10)%nat ->
  GetVarint64Ptr_loop shift result p = None
  <-> Forall (fun b => Z.land b 128 <> 0) (take n p).
Proof.
  induction n as [|n IH]; intros shift result p Hs Hn.
  - destruct p; cbn [GetVarint64Ptr_loop take];
      (destruct (Z.leb_spec shift 63); [lia|]); split; auto.
  - destruct p as [|b p]; cbn [GetVarint64Ptr_loop take];
      (destruct (Z.leb_spec shift 63); [|lia]).
    + split; auto.
    + destruct (Z.eqb_spec (Z.land b 128) 0) as [E|E]; cbn [negb].
      * split; [discriminate|]. intros HF. inversion HF; subst. contradiction.
      * rewrite IH by lia. split; [intros HF; constructor; assumption|].
        intros HF. now inversion HF.
Qed.

Lemma GetVarint32Ptr_fails (p : list Z) :
  GetVarint32Ptr p = None <-> Forall (fun b => Z.land b 128 <> 0) (take 5 p).
Proof.
  rewrite <- (GetVarint32PtrFallback_loop_fails 5 0 0 p) by lia.
  unfold GetVarint32Ptr, GetVarint32PtrFallback.
  destruct p as [|b p]; [reflexivity|].
  destruct (Z.eqb_spec (Z.land b 128) 0) as [E|E]; [|reflexivity].
  cbn [GetVarint32PtrFallback_loop]. change (0 <=? 28) with true. cbv iota.
  destruct (Z.eqb_spec (Z.land b 128) 0); [|contradiction]. cbn [negb].
  split; discriminate.
Qed.

Lemma GetVarint64Ptr_fails (p : list Z) :
  GetVarint64Ptr p = None <-> Forall (fun b => Z.land b 128 <> 0) (take 10 p).
Proof. unfold GetVarint64Ptr. apply (GetVarint64Ptr_loop_fails 10); lia. Qed.

(** C3, as the code has it.  [GetVarint32] fails exactly on the inputs in
    which none of the first five bytes ends a varint, the truncated and the
    over-long ones, [GetVarint64] likewise with ten; both then return [false]
    and leave the input [Slice] and the value as they were.
    [GetLengthPrefixedSlice] fails exactly when the length prefix does not
    decode, and then leaves the input and the result as they were, or when
    the prefix decodes and declares more bytes than remain, and then leaves
    the result as it was and the input advanced past the prefix. *)
Theorem decode_failure_state (input result : Slice) (value : Z) :
  (fst (fst (GetVarint32 input value)) = false
     <-> Forall (fun b => Z.land b 128 <> 0) (take 5 input))
  /\ (Forall (fun b => Z.land b 128 <> 0) (take 5 input) ->
        GetVarint32 input value = (false, input, value))
  /\ (fst (fst (GetVarint64 input value)) = false
        <-> Forall (fun b => Z.land b 128 <> 0) (take 10 input))
  /\ (Forall (fun b => Z.land b 128 <> 0) (take 10 input) ->
        GetVarint64 input value = (false, input, value))
  /\ (fst (fst (GetLengthPrefixedSlice input result)) = false
        <-> Forall (fun b => Z.land b 128 <> 0) (take 5 input)
            \/ exists len rest,
                 GetVarint32Ptr input = Some (len, rest) /\ size rest < len)
  /\ (Forall (fun b => Z.land b 128 <> 0) (take 5 input) ->
        GetLengthPrefixedSlice input result = (false, input, result))
  /\ (forall len rest,
        GetVarint32Ptr input = Some (len, rest) -> size rest < len ->
        GetLengthPrefixedSlice input result = (false, rest, result))
  /\ (forall len rest,
        is_uint32 len -> size rest < len ->
        GetLengthPrefixedSlice (PutVarint32 [] len ++ rest) result
        = (false, rest, result)).
Proof.
  pose proof (GetVarint32Ptr_fails input) as H32.
  pose proof (GetVarint64Ptr_fails input) as H64.
  assert (Hlps : forall inp len rest,
            GetVarint32Ptr inp = Some (len, rest) -> size rest < len ->
            GetLengthPrefixedSlice inp result = (false, rest, result)).
  { intros inp len rest E Hlt. unfold GetLengthPrefixedSlice, GetVarint32. rewrite E.
    destruct (Z.geb_spec (size rest) len); [lia|]. reflexivity. }
  split; [|split; [|split; [|split; [|split; [|split; [|split]]]]]].
  - rewrite <- H32. unfold GetVarint32.
    destruct (GetVarint32Ptr input) as [[v q]|]; cbn [fst]; split; congruence.
  - intros H. apply H32 in H. unfold GetVarint32. now rewrite H.
  - rewrite <- H64. unfold GetVarint64.
    destruct (GetVarint64Ptr input) as [[v q]|]; cbn [fst]; split; congruence.
  - intros H. apply H64 in H. unfold GetVarint64. now rewrite H.
  - rewrite <- H32. unfold GetLengthPrefixedSlice, GetVarint32.
    destruct (GetVarint32Ptr input) as [[v q]|]; cbn [fst andb].
    + destruct (Z.geb_spec (size q) v); cbn [fst]; split.
      * discriminate.
      * intros [HF|(len & rest & [= <- <-] & Hlt)]; [discriminate|lia].
      * intros _. right. exists v, q. split; [reflexivity|lia].
      * reflexivity.
    + split; [intros _; now left|reflexivity].
  - intros H. apply H32 in H. unfold GetLengthPrefixedSlice, GetVarint32. now rewrite H.
  - exact (Hlps input).
  - intros len rest Hu Hlt. apply (Hlps _ len rest); [|assumption].
    unfold PutVarint32. cbn [app]. now apply GetVarint32Ptr_EncodeVarint32.
Qed.

(** C3 as stated fails: the input [5; 1; 2] declares five bytes and holds two;
    the decode fails with the input advanced past the length byte. *)
Lemma length_prefixed_failure_advances_input :
  ~ (forall input result : Slice,
       fst (fst (GetLengthPrefixedSlice input result)) = false ->
       snd (fst (GetLengthPrefixedSlice input result)) = input
       /\ snd (GetLengthPrefixedSlice input result) = result).
Proof.
  intros H. specialize (H [5; 1; 2] [9] eq_refl). destruct H as [H _].
  vm_compute in H. discriminate.
Qed.

End DecodeFailure.

(** ** util/hash *)

Section HashFacts.
Import HashFn.

(** C6: for every seed and every data pointer, hashing zero bytes returns the
    seed. *)
Theorem Hash_zero_length (char_signed : bool) (data : list Z) (seed : Z) :
  is_uint32 seed -> Hash char_signed data 0 seed = seed.
Proof.
  unfold is_uint32. intros Hs. unfold Hash. simpl.
  rewrite Z.lxor_0_r. unfold uint32. apply Z.mod_small. lia.
Qed.

Lemma Hash_zero_length_witness :
  Hash true [1; 2; 3] 0 0xdeadbeef = 0xdeadbeef.
Proof.
  apply (Hash_zero_length true [1; 2; 3] 0xdeadbeef). unfold is_uint32. lia.
Defined.

End HashFacts.

(** ** util/arena *)

Section ArenaFacts.
Import ArenaModel.

Variable operator_new : nat -> Z -> Z.
Variable vector_grow : Z -> Z.

Abbreviation AllocateNewBlock := (AllocateNewBlock operator_new vector_grow).
Abbreviation AllocateFallback := (AllocateFallback operator_new vector_grow).
Abbreviation Allocate := (Allocate operator_new vector_grow).
Abbreviation AllocateAligned := (AllocateAligned operator_new vector_grow).
Abbreviation serve := (serve operator_new vector_grow).
Abbreviation serve_all := (serve_all operator_new vector_grow).
Abbreviation call_fits := (call_fits operator_new vector_grow).
Abbreviation calls_fit := (calls_fit operator_new vector_grow).

(** C8: a request that fits the remainder of the current block is bumped in
    place and no block is allocated; one that does not fit and exceeds a
    quarter of the 4096-byte block gets a block of its own size, with the
    current block left as it is; any other gets a new 4096-byte block, from
    which it is bumped, and the old remainder is given up. *)
Theorem Allocate_paths (bytes : Z) (a : Arena) :
  0 < bytes ->
  0 <= alloc_bytes_remaining_ a < 2 ^ 64 ->
  (bytes <= alloc_bytes_remaining_ a ->
     Allocate bytes a =
       (alloc_ptr_ a,
        mkArena (alloc_ptr_ a + bytes) (alloc_bytes_remaining_ a - bytes)
                (blocks_ a) (blocks_capacity a) (blocks_memory_ a)))
  /\ (alloc_bytes_remaining_ a < bytes -> 4096 / 4 < bytes ->
        Allocate bytes a = AllocateNewBlock bytes a
        /\ fst (Allocate bytes a) = operator_new (length (blocks_ a)) bytes
        /\ blocks_ (snd (Allocate bytes a)) = blocks_ a ++ [fst (Allocate bytes a)]
        /\ blocks_memory_ (snd (Allocate bytes a)) = uint64 (blocks_memory_ a + bytes)
        /\ alloc_ptr_ (snd (Allocate bytes a)) = alloc_ptr_ a
        /\ alloc_bytes_remaining_ (snd (Allocate bytes a)) = alloc_bytes_remaining_ a)
  /\ (alloc_bytes_remaining_ a < bytes -> bytes <= 4096 / 4 ->
        fst (Allocate bytes a) = operator_new (length (blocks_ a)) 4096
        /\ blocks_ (snd (Allocate bytes a)) = blocks_ a ++ [fst (Allocate bytes a)]
        /\ blocks_memory_ (snd (Allocate bytes a)) = uint64 (blocks_memory_ a + 4096)
        /\ alloc_ptr_ (snd (Allocate bytes a)) = fst (Allocate bytes a) + bytes
        /\ alloc_bytes_remaining_ (snd (Allocate bytes a)) = 4096 - bytes).
Proof.
  intros Hpos Hrem. change (4096 / 4) with 1024. split; [|split].
  - intros Hfit. unfold ArenaModel.Allocate.
    destruct (Z.leb_spec bytes (alloc_bytes_remaining_ a)); [|lia].
    unfold uint64. rewrite Z.mod_small by lia. reflexivity.
  - intros Hover Hbig. unfold ArenaModel.Allocate, ArenaModel.AllocateFallback.
    destruct (Z.leb_spec bytes (alloc_bytes_remaining_ a)); [lia|].
    change (kBlockSize / 4) with 1024.
    destruct (Z.gtb_spec bytes 1024); [|lia].
    repeat split; reflexivity.
  - intros Hover Hsmall. unfold ArenaModel.Allocate, ArenaModel.AllocateFallback.
    destruct (Z.leb_spec bytes (alloc_bytes_remaining_ a)); [lia|].
    change (kBlockSize / 4) with 1024.
    destruct (Z.gtb_spec bytes 1024); [lia|].
    cbn. repeat split; try reflexivity.
    unfold uint64, kBlockSize. apply Z.mod_small. lia.
Qed.

Hypothesis vector_grows : forall c, 0 <= c -> c < vector_grow c.

Lemma MemoryUsage_accounted (B : Z) (a : Arena) :
  accounted B a -> MemoryUsage a = blocks_memory_ a + 8 * blocks_capacity a.
Proof.
  intros (HB & Hr & Hm & Hc & Hu). unfold MemoryUsage, uint64.
  rewrite (Z.mod_small (blocks_capacity a * 8)) by lia.
  rewrite Z.mod_small by lia. lia.
Qed.

Lemma slop_range (p : Z) : 0 <= Z.land p (8 - 1) <= 7.
Proof.
  change (8 - 1) with (Z.ones 3). rewrite Z.land_ones by lia.
  pose proof (Z.mod_pos_bound p (2 ^ 3)). lia.
Qed.

Lemma serve_accounted (B : Z) (r : request) (a : Arena) :
  accounted B a -> call_fits r a ->
  accounted (B + request_bytes r) (serve r a)
  /\ MemoryUsage a <= MemoryUsage (serve r a).
Proof.
  intros Hacc Hfit.
  assert (Hgoal : accounted (B + request_bytes r) (serve r a)
                  /\ blocks_memory_ a + 8 * blocks_capacity a
                     <= blocks_memory_ (serve r a) + 8 * blocks_capacity (serve r a)).
  { destruct Hacc as (HB & Hr & Hm & Hc & Hu).
    destruct Hfit as (Hpos & Hpad & Hroom).
    assert (Hcap : blocks_capacity a
                   <= (if Z.of_nat (length (blocks_ a)) =? blocks_capacity a
                       then vector_grow (blocks_capacity a) else blocks_capacity a)).
    { destruct (_ =? _); [pose proof (vector_grows _ Hc)|]; lia. }
    unfold accounted.
    destruct r as [bytes|bytes]; cbn [request_bytes] in *;
      unfold ArenaModel.serve, ArenaModel.Allocate, ArenaModel.AllocateAligned,
             ArenaModel.AllocateFallback, ArenaModel.AllocateNewBlock in *;
      change (kBlockSize / 4) with 1024 in *; unfold kBlockSize in *.
    - destruct (Z.leb_spec bytes (alloc_bytes_remaining_ a)); cbn in *.
      + unfold uint64. rewrite Z.mod_small by lia. repeat split; lia.
      + destruct (Z.gtb_spec bytes 1024); cbn in *;
          unfold uint64 in *; rewrite !Z.mod_small by lia; repeat split; lia.
    - pose proof (slop_range (alloc_ptr_ a)) as Hs.
      set (m := Z.land (alloc_ptr_ a) (8 - 1)) in *.
      set (slop := if m =? 0 then 0 else 8 - m) in *.
      assert (0 <= slop <= 7) by (subst slop; destruct (Z.eqb_spec m 0); lia).
      assert (Hn : uint64 (bytes + slop) = bytes + slop)
        by (unfold uint64; apply Z.mod_small; lia).
      rewrite Hn in *.
      destruct (Z.leb_spec (bytes + slop) (alloc_bytes_remaining_ a)); cbn in *.
      + unfold uint64. rewrite Z.mod_small by lia. repeat split; lia.
      + destruct (Z.gtb_spec bytes 1024); cbn in *;
          unfold uint64 in *; rewrite !Z.mod_small by lia; repeat split; lia. }
  destruct Hgoal as [Hacc' Hle]. split; [assumption|].
  rewrite (MemoryUsage_accounted _ _ Hacc), (MemoryUsage_accounted _ _ Hacc'). exact Hle.
Qed.

Lemma serve_all_accounted (reqs : list request) : forall B a,
  accounted B a -> calls_fit reqs a ->
  accounted (B + requested reqs) (serve_all reqs a).
Proof.
  induction reqs as [|r reqs IH]; intros B a Hacc Hfit; cbn in *.
  - now rewrite Z.add_0_r.
  - destruct Hfit as [Hr Hrest].
    destruct (serve_accounted B r a Hacc Hr) as [Hacc' _].
    specialize (IH _ _ Hacc' Hrest).
    rewrite Z.add_assoc. exact IH.
Qed.

Lemma calls_fit_app (pre post : list request) : forall a,
  calls_fit (pre ++ post) a -> calls_fit pre a /\ calls_fit post (serve_all pre a).
Proof.
  induction pre as [|r pre IH]; intros a H; cbn in *.
  - split; [exact I|exact H].
  - destruct H as [Hr H]. destruct (IH _ H) as [H1 H2]. split; [split|]; assumption.
Qed.

Lemma Arena_new_accounted : accounted 0 Arena_new.
Proof. unfold accounted, Arena_new; cbn. lia. Qed.

(** C7, as the code has it: for every sequence of requests with positive
    sizes during which no [size_t] computation of the arena wraps around,
    [MemoryUsage] after a call is at least what it was before the call and at
    least the bytes requested up to and including the call. *)
Theorem MemoryUsage_monotone (reqs pre post : list request) (r : request) :
  calls_fit reqs Arena_new ->
  reqs = pre ++ r :: post ->
  MemoryUsage (serve_all pre Arena_new) <= MemoryUsage (serve_all (pre ++ [r]) Arena_new)
  /\ requested (pre ++ [r]) <= MemoryUsage (serve_all (pre ++ [r]) Arena_new).
Proof.
  intros Hfit ->.
  destruct (calls_fit_app _ _ _ Hfit) as [Hpre [Hr _]].
  pose proof (serve_all_accounted pre 0 Arena_new Arena_new_accounted Hpre) as Hacc.
  rewrite Z.add_0_l in Hacc.
  destruct (serve_accounted _ _ _ Hacc Hr) as [Hacc' Hle].
  assert (Hreq : requested (pre ++ [r]) = requested pre + request_bytes r).
  { clear. unfold requested. induction pre as [|x pre IH]; cbn; [lia | rewrite IH; lia]. }
  assert (Hrun : serve_all (pre ++ [r]) Arena_new = serve r (serve_all pre Arena_new)).
  { unfold ArenaModel.serve_all. now rewrite fold_left_app. }
  rewrite Hreq, Hrun. split; [exact Hle|].
  rewrite (MemoryUsage_accounted _ _ Hacc').
  destruct Hacc' as (HB & Hrem & Hm & Hc & Hu). lia.
Qed.

End ArenaFacts.

Lemma Allocate_paths_witness :
  let a := ArenaModel.mkArena 65636 3996 [65536] 1 4096 in
  let a' := ArenaModel.mkArena 69536 96 [65536] 1 4096 in
  let Allocate := ArenaModel.Allocate ArenaModel.example_new ArenaModel.example_grow in
  Allocate 100 a = (65636, ArenaModel.mkArena 65736 3896 [65536] 1 4096)
  /\ ArenaModel.blocks_memory_ (snd (Allocate 5000 a)) = uint64 (4096 + 5000)
  /\ ArenaModel.alloc_bytes_remaining_ (snd (Allocate 100 a')) = 4096 - 100.
Proof.
  cbv zeta. split; [|split].
  - destruct (Allocate_paths ArenaModel.example_new ArenaModel.example_grow 100
                (ArenaModel.mkArena 65636 3996 [65536] 1 4096)) as (H & _ & _);
      [lia | simpl; lia |]. apply H. simpl. lia.
  - destruct (Allocate_paths ArenaModel.example_new ArenaModel.example_grow 5000
                (ArenaModel.mkArena 65636 3996 [65536] 1 4096)) as (_ & H & _);
      [lia | simpl; lia |]. apply H; [simpl; lia | reflexivity].
  - destruct (Allocate_paths ArenaModel.example_new ArenaModel.example_grow 100
                (ArenaModel.mkArena 69536 96 [65536] 1 4096)) as (_ & _ & H);
      [lia | simpl; lia |]. apply H; [simpl; lia | vm_compute; discriminate].
Defined.

Lemma example_grow_grows (c : Z) : 0 <= c -> c < ArenaModel.example_grow c.
Proof. unfold ArenaModel.example_grow. lia. Qed.

Lemma MemoryUsage_monotone_witness :
  let serve_all := ArenaModel.serve_all ArenaModel.example_new ArenaModel.example_grow in
  let pre := [ArenaModel.ReqAllocate 100; ArenaModel.ReqAllocateAligned 3000] in
  let r := ArenaModel.ReqAllocate 2000 in
  ArenaModel.MemoryUsage (serve_all pre ArenaModel.Arena_new)
  <= ArenaModel.MemoryUsage (serve_all (pre ++ [r]) ArenaModel.Arena_new)
  /\ ArenaModel.requested (pre ++ [r])
     <= ArenaModel.MemoryUsage (serve_all (pre ++ [r]) ArenaModel.Arena_new).
Proof.
  cbv zeta.
  apply (MemoryUsage_monotone ArenaModel.example_new ArenaModel.example_grow
           example_grow_grows
           [ArenaModel.ReqAllocate 100; ArenaModel.ReqAllocateAligned 3000;
            ArenaModel.ReqAllocate 2000; ArenaModel.ReqAllocate 7]
           [ArenaModel.ReqAllocate 100; ArenaModel.ReqAllocateAligned 3000]
           [ArenaModel.ReqAllocate 7] (ArenaModel.ReqAllocate 2000)).
  - vm_compute. repeat split; discriminate || exact I.
  - reflexivity.
Defined.

(** C7 as stated fails where a padded size wraps around: after [Allocate(1)]
    the bump pointer is one past a block start, [AllocateAligned(2^64 - 1)]
    pads the request to 6 modulo 2^64 and serves it from the current block,
    and [MemoryUsage] stays at 4104. *)
Lemma MemoryUsage_below_requested :
  ~ (forall (operator_new : nat -> Z -> Z) (vector_grow : Z -> Z)
            (reqs : list ArenaModel.request),
       (forall c, 0 <= c -> c < vector_grow c) ->
       Forall (fun r => 0 < ArenaModel.request_bytes r < 2 ^ 64) reqs ->
       ArenaModel.requested reqs
       <= ArenaModel.MemoryUsage
            (ArenaModel.serve_all operator_new vector_grow reqs ArenaModel.Arena_new)).
Proof.
  intros H.
  specialize (H ArenaModel.example_new ArenaModel.example_grow
                [ArenaModel.ReqAllocate 1; ArenaModel.ReqAllocateAligned (2 ^ 64 - 1)]
                example_grow_grows).
  assert (Hreqs : Forall (fun r => 0 < ArenaModel.request_bytes r < 2 ^ 64)
                    [ArenaModel.ReqAllocate 1; ArenaModel.ReqAllocateAligned (2 ^ 64 - 1)]).
  { repeat constructor; cbn; lia. }
  specialize (H Hreqs). vm_compute in H. apply H. reflexivity.
Qed.

(** ** util/coding: bit-packed integers *)

Section BitStreamFacts.
Import Coding.

Lemma mask_ones (n : Z) : 0 <= n <= 8 -> uint8 (Z.shiftl 1 n - 1) = Z.ones n.
Proof.
  intros Hn. unfold uint8. rewrite Z.ones_equiv, Z.shiftl_1_l.
  apply Z.mod_small.
  assert (0 < 2 ^ n) by (apply Z.pow_pos_nonneg; lia).
  assert (2 ^ n <= 2 ^ 8) by (apply Z.pow_le_mono_r; lia). lia.
Qed.

Lemma put_byte_bits (old value bo n k : Z) :
  0 <= bo -> 0 <= n -> bo + n <= 8 -> 0 <= k < 8 ->
  Z.testbit
    (uint8 (uint64 (Z.land old (Z.lnot (Z.shiftl (uint8 (Z.shiftl 1 n - 1)) bo))
                    + Z.shiftl (Z.land value (uint8 (Z.shiftl 1 n - 1))) bo))) k
  = if (bo <=? k) && (k <? bo + n) then Z.testbit value (k - bo) else Z.testbit old k.
Proof.
  intros Hbo Hn Hle Hk. rewrite mask_ones by lia.
  rewrite <- Z.or_to_plus.
  - unfold uint8, uint64.
    rewrite !Z.testbit_mod_pow2 by lia.
    destruct (Z.ltb_spec k 8); [|lia]. destruct (Z.ltb_spec k 64); [|lia]. cbn [andb].
    rewrite Z.lor_spec, !Z.land_spec, Z.lnot_spec, !Z.shiftl_spec by lia.
    rewrite Z.land_spec.
    destruct (Z.leb_spec bo k); cbn [andb].
    + rewrite !Z.testbit_ones_nonneg by lia.
      destruct (Z.ltb_spec (k - bo) n), (Z.ltb_spec k (bo + n)); try lia; cbn; btauto.
    + rewrite !(Z.testbit_neg_r _ (k - bo)) by lia. cbn. btauto.
  - apply Z.bits_inj'. intros i Hi.
    rewrite Z.land_spec, Z.land_spec, Z.lnot_spec, !Z.shiftl_spec, Z.land_spec, Z.bits_0 by lia.
    destruct (Z.ltb_spec (i - bo) 0).
    + rewrite !(Z.testbit_neg_r _ (i - bo)) by lia. cbn. btauto.
    + rewrite !Z.testbit_ones_nonneg by lia. btauto.
Qed.

Lemma bit_at_split (buf : list Z) (B b : Z) :
  0 <= B -> 0 <= b < 8 ->
  bit_at buf (8 * B + b) = Z.testbit (byte_at buf (Z.to_nat B)) b.
Proof.
  intros HB Hb. unfold bit_at.
  replace ((8 * B + b) / 8) with B by dlia.
  replace ((8 * B + b) mod 8) with b by dlia. reflexivity.
Qed.

Lemma byte_at_insert (buf : list Z) (i j : nat) (x : Z) :
  (i < length buf)%nat ->
  byte_at (<[i := x]> buf) j = if Nat.eqb i j then x else byte_at buf j.
Proof.
  intros Hi. unfold byte_at. destruct (Nat.eqb_spec i j) as [->|Hne].
  - now rewrite list_lookup_insert_eq.
  - now rewrite list_lookup_insert_ne.
Qed.

Lemma BitStreamPutInt_loop_length (fuel : nat) : forall buf Bo bo bits value,
  length (BitStreamPutInt_loop fuel buf Bo bo bits value) = length buf.
Proof.
  induction fuel as [|fuel IH]; intros; cbn [BitStreamPutInt_loop]; [reflexivity|].
  destruct (bits >? 0); [|reflexivity]. cbv zeta. now rewrite IH, length_insert.
Qed.

Lemma BitStreamPutInt_loop_bits (fuel : nat) : forall buf Bo bo bits value i,
  0 <= Bo -> 0 <= bo < 8 -> 0 <= bits <= Z.of_nat fuel ->
  8 * Bo + bo + bits <= 8 * Z.of_nat (length buf) -> 0 <= i ->
  bit_at (BitStreamPutInt_loop fuel buf Bo bo bits value) i
  = if (8 * Bo + bo <=? i) && (i <? 8 * Bo + bo + bits)
    then Z.testbit value (i - (8 * Bo + bo)) else bit_at buf i.
Proof.
  induction fuel as [|fuel IH]; intros buf Bo bo bits value i HBo Hbo Hbits Hlen Hi;
    cbn [BitStreamPutInt_loop].
  - assert (bits = 0) by lia. subst bits.
    destruct (Z.leb_spec (8 * Bo + bo) i), (Z.ltb_spec i (8 * Bo + bo + 0)); try lia; reflexivity.
  - destruct (Z.gtb_spec bits 0) as [Hpos|Hz].
    2:{ assert (bits = 0) by lia. subst bits.
        destruct (Z.leb_spec (8 * Bo + bo) i), (Z.ltb_spec i (8 * Bo + bo + 0)); try lia; reflexivity. }
    cbv zeta. set (n := Z.min bits (8 - bo)).
    assert (Hn : 1 <= n <= 8 - bo) by lia.
    assert (Hidx : (Z.to_nat Bo < length buf)%nat) by lia.
    rewrite IH; try lia.
    2:{ rewrite length_insert. lia. }
    replace (8 * (Bo + 1) + 0) with (8 * Bo + 8) by lia.
    (* the bits of the byte just stored, and the others *)
    assert (Hstored : bit_at (<[Z.to_nat Bo := 
                uint8 (uint64 (Z.land (byte_at buf (Z.to_nat Bo))
                                 (Z.lnot (Z.shiftl (uint8 (Z.shiftl 1 n - 1)) bo))
                               + Z.shiftl (Z.land value (uint8 (Z.shiftl 1 n - 1))) bo))]> buf) i
              = if (8 * Bo + bo <=? i) && (i <? 8 * Bo + bo + n)
                then Z.testbit value (i - (8 * Bo + bo)) else bit_at buf i).
    { unfold bit_at. rewrite byte_at_insert by assumption.
      destruct (Nat.eqb_spec (Z.to_nat Bo) (Z.to_nat (i / 8))) as [He|Hne].
      - assert (HB : i / 8 = Bo) by dlia. rewrite <- He.
        rewrite put_byte_bits by dlia.
        replace (i - (8 * Bo + bo)) with (i mod 8 - bo) by dlia.
        destruct (Z.leb_spec bo (i mod 8)), (Z.ltb_spec (i mod 8) (bo + n)),
                 (Z.leb_spec (8 * Bo + bo) i), (Z.ltb_spec i (8 * Bo + bo + n));
          cbn [andb]; try reflexivity; exfalso; dlia.
      - assert (HB : i / 8 <> Bo) by dlia.
        destruct (Z.leb_spec (8 * Bo + bo) i), (Z.ltb_spec i (8 * Bo + bo + n));
          cbn [andb]; try reflexivity; exfalso; dlia. }
    rewrite Hstored. clear Hstored.
    destruct (Z.leb_spec (8 * Bo + 8) i), (Z.ltb_spec i (8 * Bo + 8 + (bits - n))),
             (Z.leb_spec (8 * Bo + bo) i), (Z.ltb_spec i (8 * Bo + bo + n)),
             (Z.ltb_spec i (8 * Bo + bo + bits));
      cbn [andb]; try reflexivity; try (exfalso; lia).
    rewrite Z.shiftr_spec by lia. f_equal. lia.
Qed.

Lemma get_term_bits (byte bo n shift j : Z) :
  0 <= bo -> 0 <= n -> 0 <= shift -> 0 <= j ->
  Z.testbit (Z.shiftl (Z.land (Z.shiftr byte bo) (Z.ones n)) shift) j
  = (shift <=? j) && (j <? shift + n) && Z.testbit byte (bo + (j - shift)).
Proof.
  intros Hbo Hn Hs Hj.
  destruct (Z.leb_spec shift j).
  - rewrite Z.shiftl_spec, Z.land_spec, Z.shiftr_spec, Z.testbit_ones_nonneg by lia.
    replace (j - shift + bo) with (bo + (j - shift)) by lia.
    destruct (Z.ltb_spec (j - shift) n), (Z.ltb_spec j (shift + n)); try lia; cbn; btauto.
  - rewrite Z.shiftl_spec_low by lia. reflexivity.
Qed.

Lemma get_term_range (byte bo n shift : Z) :
  0 <= n -> 0 <= shift ->
  0 <= Z.shiftl (Z.land (Z.shiftr byte bo) (Z.ones n)) shift < 2 ^ (shift + n).
Proof.
  intros Hn Hs. rewrite Z.land_ones by lia. rewrite Z.shiftl_mul_pow2 by lia.
  pose proof (Z.mod_pos_bound (Z.shiftr byte bo) (2 ^ n) ltac:(apply Z.pow_pos_nonneg; lia)).
  assert (0 < 2 ^ shift) by (apply Z.pow_pos_nonneg; lia).
  rewrite Z.pow_add_r by lia. nia.
Qed.

Lemma testbit_above (x k j : Z) : 0 <= x < 2 ^ k -> k <= j -> Z.testbit x j = false.
Proof.
  intros Hx Hj. destruct (Z.eq_dec x 0) as [->|Hne]; [apply Z.bits_0|].
  assert (0 <= k).
  { destruct (Z.le_gt_cases 0 k); [assumption|].
    rewrite Z.pow_neg_r in Hx by lia. lia. }
  apply Z.bits_above_log2; [lia|]. apply Z.lt_le_trans with k; [|assumption].
  apply Z.log2_lt_pow2; lia.
Qed.

Lemma BitStreamGetInt_loop_bits (fuel : nat) : forall buf Bo bo shift bits result,
  0 <= Bo -> 0 <= bo < 8 -> 0 <= bits <= Z.of_nat fuel -> 0 <= shift ->
  shift + bits <= 64 -> 0 <= result < 2 ^ shift ->
  let R := BitStreamGetInt_loop fuel buf Bo bo shift bits result in
  0 <= R < 2 ^ (shift + bits)
  /\ forall j, 0 <= j ->
       Z.testbit R j
       = if j <? shift then Z.testbit result j
         else (j <? shift + bits) && bit_at buf (8 * Bo + bo + (j - shift)).
Proof.
  induction fuel as [|fuel IH];
    intros buf Bo bo shift bits result HBo Hbo Hbits Hshift H64 Hres;
    cbn [BitStreamGetInt_loop].
  - assert (bits = 0) by lia. subst bits. cbv zeta. rewrite Z.add_0_r.
    split; [assumption|]. intros j Hj. destruct (Z.ltb_spec j shift); [reflexivity|].
    cbn [andb]. now apply testbit_above with shift.
  - destruct (Z.gtb_spec bits 0) as [Hpos|Hz].
    2:{ assert (bits = 0) by lia. subst bits. cbv zeta. rewrite Z.add_0_r.
        split; [assumption|]. intros j Hj. destruct (Z.ltb_spec j shift); [reflexivity|].
        cbn [andb]. now apply testbit_above with shift. }
    cbv zeta. set (n := Z.min bits (8 - bo)).
    assert (Hn : 1 <= n <= 8 - bo) by lia.
    assert (Hn' : n <= bits) by lia.
    rewrite mask_ones by lia.
    set (byte := byte_at buf (Z.to_nat Bo)).
    set (T := Z.shiftl (Z.land (Z.shiftr byte bo) (Z.ones n)) shift).
    pose proof (get_term_range byte bo n shift ltac:(lia) Hshift) as HT. fold T in HT.
    assert (Hpow : 2 ^ (shift + n) <= 2 ^ 64) by (apply Z.pow_le_mono_r; lia).
    assert (HuT : uint64 T = T) by (unfold uint64; apply Z.mod_small; lia).
    rewrite HuT.
    assert (Hdisj : Z.land result T = 0).
    { apply Z.bits_inj'. intros i Hi. rewrite Z.land_spec, Z.bits_0.
      destruct (Z.ltb_spec i shift).
      - unfold T. rewrite Z.shiftl_spec_low by lia. apply andb_false_r.
      - rewrite (testbit_above result shift i) by lia. reflexivity. }
    assert (Hsum : result + T = Z.lor result T) by (symmetry; now apply Z.or_to_plus).
    assert (Hsum_range : 0 <= result + T < 2 ^ (shift + n)).
    { split; [lia|]. rewrite Hsum.
      destruct (Z.eq_dec (Z.lor result T) 0) as [->|Hne]; [lia|].
      apply Z.log2_lt_pow2; [rewrite <- Hsum; lia|].
      rewrite Z.log2_lor by lia.
      assert (2 ^ shift <= 2 ^ (shift + n)) by (apply Z.pow_le_mono_r; lia).
      apply Z.max_lub_lt.
      - destruct (Z.eq_dec result 0) as [->|]; [simpl; lia|]. apply Z.log2_lt_pow2; lia.
      - destruct (Z.eq_dec T 0) as [->|]; [simpl; lia|]. apply Z.log2_lt_pow2; lia. }
    assert (Hu : uint64 (result + T) = result + T) by (unfold uint64; apply Z.mod_small; lia).
    rewrite Hu.
    destruct (IH buf (Bo + 1) 0 (shift + n) (bits - n) (result + T)) as [HR Hb]; try lia.
    replace (shift + n + (bits - n)) with (shift + bits) in * by lia.
    split; [exact HR|]. intros j Hj. rewrite Hb by assumption. rewrite Hsum.
    rewrite Z.lor_spec. unfold T at 1. rewrite get_term_bits by lia.
    assert (Hmin : n = Z.min bits (8 - bo)) by reflexivity.
    destruct (Z.ltb_spec j (shift + n)), (Z.ltb_spec j shift), (Z.leb_spec shift j),
             (Z.ltb_spec j (shift + bits)); try lia; cbn [andb orb];
      rewrite ?orb_false_r; try reflexivity.
    + rewrite (testbit_above result shift j) by lia. cbn [orb].
      unfold byte. replace (8 * Bo + bo + (j - shift)) with (8 * Bo + (bo + (j - shift))) by lia.
      now rewrite bit_at_split by lia.
    + f_equal. lia.
Qed.

(** C9: inside the buffer, for every bit offset and every width up to 64,
    reading after writing returns the value truncated to its low [bits] bits,
    and the write leaves the length of the buffer and every bit outside
    [[offset, offset + bits)] as they were. *)
Theorem BitStream_round_trip (buf : list Z) (offset bits value : Z) :
  0 <= offset -> 0 <= bits <= 64 ->
  (offset + bits + 7) / 8 <= Z.of_nat (length buf) ->
  BitStreamGetInt (BitStreamPutInt buf offset bits value) offset bits = value mod 2 ^ bits
  /\ length (BitStreamPutInt buf offset bits value) = length buf
  /\ forall i, 0 <= i -> ~ (offset <= i < offset + bits) ->
       bit_at (BitStreamPutInt buf offset bits value) i = bit_at buf i.
Proof.
  intros Ho Hb Hlen. unfold BitStreamGetInt, BitStreamPutInt.
  assert (Hdm : offset = 8 * (offset / 8) + offset mod 8) by dlia.
  assert (HB : 0 <= offset / 8) by dlia.
  assert (Hm : 0 <= offset mod 8 < 8) by dlia.
  assert (Hin : 8 * (offset / 8) + offset mod 8 + bits <= 8 * Z.of_nat (length buf)) by dlia.
  assert (Hput : forall i, 0 <= i ->
            bit_at (BitStreamPutInt_loop (Z.to_nat bits) buf (offset / 8) (offset mod 8) bits value) i
            = if (offset <=? i) && (i <? offset + bits)
              then Z.testbit value (i - offset) else bit_at buf i).
  { intros i Hi. rewrite BitStreamPutInt_loop_bits by lia. now rewrite <- Hdm. }
  split; [|split].
  - destruct (BitStreamGetInt_loop_bits (Z.to_nat bits)
                (BitStreamPutInt_loop (Z.to_nat bits) buf (offset / 8) (offset mod 8) bits value)
                (offset / 8) (offset mod 8) 0 bits 0) as [HR Hbits]; try lia.
    cbv zeta in HR, Hbits. rewrite Z.add_0_l in HR.
    apply Z.bits_inj'. intros j Hj. rewrite Hbits by assumption.
    rewrite Z.testbit_mod_pow2 by lia.
    destruct (Z.ltb_spec j 0); [lia|]. rewrite Z.add_0_l, Z.sub_0_r, <- Hdm.
    destruct (Z.ltb_spec j bits); cbn [andb]; [|reflexivity].
    rewrite Hput by lia.
    destruct (Z.leb_spec offset (offset + j)), (Z.ltb_spec (offset + j) (offset + bits));
      try lia. cbn [andb]. f_equal. lia.
  - apply BitStreamPutInt_loop_length.
  - intros i Hi Hout. rewrite Hput by assumption.
    destruct (Z.leb_spec offset i), (Z.ltb_spec i (offset + bits)); try lia; reflexivity.
Qed.

Lemma BitStream_round_trip_witness :
  BitStreamGetInt (BitStreamPutInt [255; 255; 255] 3 10 0x155) 3 10 = 0x155 mod 2 ^ 10
  /\ length (BitStreamPutInt [255; 255; 255] 3 10 0x155) = length [255; 255; 255]
  /\ forall i, 0 <= i -> ~ (3 <= i < 3 + 10) ->
       bit_at (BitStreamPutInt [255; 255; 255] 3 10 0x155) i = bit_at [255; 255; 255] i.
Proof.
  apply (BitStream_round_trip [255; 255; 255] 3 10 0x155); [lia | lia | vm_compute; discriminate].
Defined.

End BitStreamFacts.

(** ** util/coding: length-prefixed slices *)

Section LengthPrefixedFacts.
Import Coding.

Lemma PutLengthPrefixedSlice_app (dst : list Z) (value : Slice) :
  PutLengthPrefixedSlice dst value = dst ++ PutLengthPrefixedSlice [] value.
Proof.
  unfold PutLengthPrefixedSlice, PutVarint32. cbn [app]. now rewrite <- app_assoc.
Qed.

Lemma GetLengthPrefixedSlice_Put (value rest result : Slice) :
  size value < 2 ^ 32 ->
  GetLengthPrefixedSlice (PutLengthPrefixedSlice [] value ++ rest) result
  = (true, rest, value).
Proof.
  intros Hsz. unfold size in Hsz.
  assert (Hu : uint32 (size value) = size value).
  { unfold uint32, size. apply Z.mod_small. lia. }
  unfold PutLengthPrefixedSlice, PutVarint32, GetLengthPrefixedSlice, GetVarint32.
  cbn [app]. rewrite Hu, <- app_assoc.
  rewrite GetVarint32Ptr_EncodeVarint32 by (unfold is_uint32, size; lia).
  assert (Hge : size (value ++ rest) >=? size value = true).
  { unfold size. rewrite length_app. apply Z.geb_le. lia. }
  rewrite Hge. cbn [andb]. unfold remove_prefix, size. rewrite Nat2Z.id.
  now rewrite take_app_length, drop_app_length.
Qed.

End LengthPrefixedFacts.

(** ** leveldb/write_batch.h *)

Section WriteBatchFacts.
Import Coding WriteBatchModel.

Variables kTypeValue kTypeDeletion kTypeMerge : Z.
Hypothesis value_deletion : kTypeValue <> kTypeDeletion.
Hypothesis value_merge : kTypeValue <> kTypeMerge.
Hypothesis deletion_merge : kTypeDeletion <> kTypeMerge.

Abbreviation record_bytes := (record_bytes kTypeValue kTypeDeletion kTypeMerge).
Abbreviation Iterate_loop := (Iterate_loop kTypeValue kTypeDeletion kTypeMerge).
Abbreviation Iterate := (Iterate kTypeValue kTypeDeletion kTypeMerge).
Abbreviation append := (append kTypeValue kTypeDeletion kTypeMerge).
Abbreviation build := (build kTypeValue kTypeDeletion kTypeMerge).

Lemma SetCount_drop (rep_ : list Z) (n : Z) :
  (kHeader <= length rep_)%nat ->
  length (SetCount rep_ n) = length rep_
  /\ drop kHeader (SetCount rep_ n) = drop kHeader rep_.
Proof.
  unfold kHeader, SetCount. intros Hlen.
  assert (Ht : length (take 8 rep_) = 8%nat) by (rewrite length_take; lia).
  split.
  - rewrite !length_app, Ht, length_drop. unfold EncodeFixed32, kHeader. cbn [length]. lia.
  - rewrite app_assoc. rewrite drop_app_length'; [reflexivity|].
    rewrite length_app, Ht. reflexivity.
Qed.

Lemma append_record (rep_ : list Z) (u : Update) :
  (kHeader <= length rep_)%nat ->
  (kHeader <= length (append rep_ u))%nat
  /\ drop kHeader (append rep_ u) = drop kHeader rep_ ++ record_bytes u.
Proof.
  intros Hlen.
  assert (Hshape : exists n, append rep_ u = SetCount rep_ n ++ record_bytes u).
  { destruct u as [k v|k|k v]; cbn [WriteBatchModel.append WriteBatchModel.record_bytes];
      unfold Put, Delete, Merge; cbv zeta; eexists;
      rewrite ?(PutLengthPrefixedSlice_app (PutLengthPrefixedSlice _ _) _),
              ?(PutLengthPrefixedSlice_app (_ ++ _) _),
              ?(PutLengthPrefixedSlice_app [_] _);
      rewrite <- ?app_assoc; reflexivity. }
  destruct Hshape as [n ->].
  destruct (SetCount_drop rep_ n Hlen) as [Hl Hd].
  split.
  - rewrite length_app. lia.
  - rewrite drop_app_le by lia. now rewrite Hd.
Qed.

Lemma build_records (us : list Update) : forall rep_,
  (kHeader <= length rep_)%nat ->
  drop kHeader (fold_left append us rep_)
  = drop kHeader rep_ ++ concat (map record_bytes us).
Proof.
  induction us as [|u us IH]; intros rep_ Hlen; cbn [fold_left map concat].
  - now rewrite app_nil_r.
  - destruct (append_record rep_ u Hlen) as [Hl Hd].
    rewrite IH by assumption. rewrite Hd. now rewrite <- app_assoc.
Qed.

Lemma Iterate_loop_records (us : list Update) : forall fuel,
  Forall update_fits us ->
  (length (concat (map record_bytes us)) <= fuel)%nat ->
  Iterate_loop fuel (concat (map record_bytes us)) = Some us.
Proof.
  induction us as [|u us IH]; intros fuel Hfit Hfuel.
  - destruct fuel; reflexivity.
  - inversion Hfit as [|? ? Hu Hus]; subst.
    cbn [map concat] in *.
    destruct u as [k v|k|k v]; cbn [WriteBatchModel.record_bytes update_fits] in *;
      rewrite ?(PutLengthPrefixedSlice_app (PutLengthPrefixedSlice _ _) _),
              ?(PutLengthPrefixedSlice_app [_] _) in *;
      rewrite <- ?app_assoc in *; cbn [app] in *;
      (destruct fuel as [|fuel]; [cbn [length] in Hfuel; lia|]);
      cbn [WriteBatchModel.Iterate_loop].
    + rewrite Z.eqb_refl.
      rewrite GetLengthPrefixedSlice_Put by tauto.
      rewrite GetLengthPrefixedSlice_Put by tauto.
      rewrite IH; [reflexivity|assumption|].
      cbn [length] in Hfuel. rewrite !length_app in Hfuel. lia.
    + destruct (Z.eqb_spec kTypeDeletion kTypeValue) as [E|_]; [congruence|].
      rewrite Z.eqb_refl.
      rewrite GetLengthPrefixedSlice_Put by tauto.
      rewrite IH; [reflexivity|assumption|].
      cbn [length] in Hfuel. rewrite !length_app in Hfuel. lia.
    + destruct (Z.eqb_spec kTypeMerge kTypeValue) as [E|_]; [congruence|].
      destruct (Z.eqb_spec kTypeMerge kTypeDeletion) as [E|_]; [congruence|].
      rewrite Z.eqb_refl.
      rewrite GetLengthPrefixedSlice_Put by tauto.
      rewrite GetLengthPrefixedSlice_Put by tauto.
      rewrite IH; [reflexivity|assumption|].
      cbn [length] in Hfuel. rewrite !length_app in Hfuel. lia.
Qed.

(** C10: for every batch built by a sequence of [Put], [Delete] and [Merge]
    calls, with keys and values a varint32 length can describe, replaying the
    batch, or a batch constructed from its [Data()], visits the records of the
    calls in the order of the calls. *)
Theorem WriteBatch_round_trip (us : list Update) :
  Forall update_fits us ->
  Iterate (WriteBatch_of (Data (build us))) = Some us
  /\ Iterate (build us) = Some us.
Proof.
  intros Hfit.
  assert (H : Iterate (build us) = Some us).
  { unfold WriteBatchModel.Iterate, WriteBatchModel.build.
    rewrite build_records by (vm_compute; lia).
    cbn [WriteBatch_new Clear replicate drop kHeader app].
    now apply Iterate_loop_records. }
  split; [exact H|exact H].
Qed.

End WriteBatchFacts.

Lemma WriteBatch_round_trip_witness :
  let us := [WriteBatchModel.UPut [107] [118; 49]; WriteBatchModel.UDelete [107];
             WriteBatchModel.UMerge [107] []; WriteBatchModel.UPut [107] [118; 51]] in
  WriteBatchModel.Iterate 1 0 2
    (WriteBatchModel.WriteBatch_of (WriteBatchModel.Data (WriteBatchModel.build 1 0 2 us)))
  = Some us
  /\ WriteBatchModel.Iterate 1 0 2 (WriteBatchModel.build 1 0 2 us) = Some us.
Proof.
  cbv zeta. apply (WriteBatch_round_trip 1 0 2); try discriminate.
  repeat constructor; cbn; lia.
Defined.

Section WriteBatchOversized.
Import Coding WriteBatchModel.

Lemma GetLengthPrefixedSlice_zero (input result : Slice) :
  GetLengthPrefixedSlice (0 :: input) result = (true, input, []).
Proof.
  unfold GetLengthPrefixedSlice, GetVarint32, GetVarint32Ptr.
  change (Z.land 0 128 =? 0) with true. cbv iota beta.
  destruct (Z.geb_spec (size input) 0) as [_|Hneg]; [|unfold size in Hneg; lia].
  reflexivity.
Qed.

Lemma oversized_key_replayed_empty (key' value : Slice) :
  size (0 :: key') = 2 ^ 32 ->
  Iterate 1 0 2 (build 1 0 2 [UPut (0 :: key') value])
  <> Some [UPut (0 :: key') value].
Proof.
  intros Hsize. unfold Iterate, build. cbn [fold_left].
  pose proof (append_record 1 0 2 ltac:(discriminate) ltac:(discriminate)
                ltac:(discriminate) WriteBatch_new (UPut (0 :: key') value)
                ltac:(vm_compute; lia)) as [_ Hd].
  rewrite Hd. change (drop kHeader WriteBatch_new) with (@nil Z). cbn [app record_bytes].
  assert (Hbytes : PutLengthPrefixedSlice (PutLengthPrefixedSlice [1] (0 :: key')) value
                   = 1 :: 0 :: 0 :: key' ++ PutLengthPrefixedSlice [] value).
  { rewrite (PutLengthPrefixedSlice_app (PutLengthPrefixedSlice [1] (0 :: key'))).
    unfold PutLengthPrefixedSlice at 1. unfold PutVarint32. rewrite Hsize.
    change (uint32 (2 ^ 32)) with 0. change (EncodeVarint32 0) with [0]. reflexivity. }
  rewrite Hbytes. cbn [length].
  match goal with |- context [S (S (S ?n))] => generalize (S (S n)) end.
  intros fuel. cbn [Iterate_loop].
  change (1 =? 1) with true. cbv iota.
  rewrite !GetLengthPrefixedSlice_zero.
  match goal with |- cons _ <$> ?rest <> _ => generalize rest end.
  intros [l|]; cbn [fmap option_fmap option_map]; [|discriminate].
  intros H. injection H as H _. discriminate H.
Qed.

End WriteBatchOversized.

(** C10 as stated fails on a key of [2 ^ 32] bytes: its length does not fit
    the varint32 prefix, which is written as 0, and the replay does not give
    back the [Put] of the key. *)
Lemma WriteBatch_oversized_key_not_replayed :
  let key := replicate (Z.to_nat (2 ^ 32)) 0 in
  WriteBatchModel.Iterate 1 0 2
    (WriteBatchModel.WriteBatch_of
       (WriteBatchModel.Data (WriteBatchModel.build 1 0 2 [WriteBatchModel.UPut key []])))
  <> Some [WriteBatchModel.UPut key []].
Proof.
  cbv zeta. unfold WriteBatchModel.WriteBatch_of, WriteBatchModel.Data.
  assert (Hlen : Z.of_nat (length (replicate (Z.to_nat (2 ^ 32)) 0)) = 2 ^ 32).
  { rewrite length_replicate. apply Z2Nat.id. apply Z.pow_nonneg. lia. }
  destruct (replicate (Z.to_nat (2 ^ 32)) 0) as [|b key'] eqn:E.
  - cbn [length] in Hlen. discriminate Hlen.
  - assert (Hb : b = 0).
    { assert (Hin : b ∈ replicate (Z.to_nat (2 ^ 32)) 0) by (rewrite E; left).
      apply elem_of_replicate in Hin. tauto. }
    subst b. apply oversized_key_replayed_empty. exact Hlen.
Qed.


(** ** db/skiplist *)

Section SkipListFacts.
Import SkipListModel.

Context {Key : Type} (compare_ : Key -> Key -> Z) (key0 : Key).
Context {Random : Type} (Random_Next : Random -> Z * Random).
Variable atomic_value_init : bool.

Abbreviation RandomHeight_loop := (RandomHeight_loop Random_Next).
Abbreviation RandomHeight := (RandomHeight Random_Next).
Abbreviation RandomHeight_spec := (RandomHeight_spec Random_Next).
Abbreviation Insert := (Insert compare_ Random_Next atomic_value_init).
Abbreviation Insert_at := (Insert_at (Random:=Random) atomic_value_init).
Abbreviation FindGreatOrEqual := (FindGreatOrEqual (Random:=Random) compare_).
Abbreviation Contains := (Contains (Random:=Random) compare_).
Abbreviation SkipList_new := (SkipList_new (Random:=Random) key0).

Lemma RandomHeight_loop_range (fuel : nat) : forall height rnd,
  1 <= height <= kMaxHeight ->
  1 <= fst (RandomHeight_loop fuel height rnd) <= kMaxHeight.
Proof.
  induction fuel as [|fuel IH]; intros height rnd Hh; cbn [SkipListModel.RandomHeight_loop].
  - exact Hh.
  - destruct (Z.ltb_spec height kMaxHeight); [|exact Hh].
    destruct (Random_Next rnd) as [r rnd'].
    destruct (Z.land r 4 =? 0); [|exact Hh].
    apply IH. lia.
Qed.

Lemma RandomHeight_range (rnd : Random) :
  1 <= fst (RandomHeight rnd) <= kMaxHeight.
Proof. apply RandomHeight_loop_range. unfold kMaxHeight. lia. Qed.

(** C5: the loop of [RandomHeight] goes on when bit 2 of the draw is clear,
    whatever the draw is modulo 4: a first draw with bit 2 clear that is not a
    multiple of 4 gives a height of at least 2, where a loop that goes on
    while the draw modulo 4 is zero stops at height 1. *)
Theorem RandomHeight_tests_bit_2 (rnd : Random) :
  Z.land (fst (Random_Next rnd)) 4 = 0 ->
  fst (Random_Next rnd) mod 4 <> 0 ->
  2 <= fst (RandomHeight rnd) <= kMaxHeight
  /\ RandomHeight_spec rnd = (1, snd (Random_Next rnd)).
Proof.
  intros Hbit Hmod.
  assert (Hmono : forall fuel height rnd, height <= fst (RandomHeight_loop fuel height rnd)).
  { clear. induction fuel as [|fuel IH]; intros height rnd;
      cbn [SkipListModel.RandomHeight_loop]; [cbn; lia|].
    destruct (height <? kMaxHeight); [|cbn; lia].
    destruct (Random_Next rnd) as [r rnd'].
    destruct (Z.land r 4 =? 0); [|cbn; lia].
    specialize (IH (height + 1) rnd'). lia. }
  split.
  - split; [|apply RandomHeight_range].
    unfold SkipListModel.RandomHeight.
    change (Z.to_nat kMaxHeight) with (S 11).
    change (RandomHeight_loop (S 11) 1 rnd)
      with (if 1 <? kMaxHeight then
              let '(r, rnd) := Random_Next rnd in
              if Z.land r 4 =? 0 then RandomHeight_loop 11 (1 + 1) rnd else (1, rnd)
            else (1, rnd)).
    change (1 <? kMaxHeight) with true. cbv iota.
    destruct (Random_Next rnd) as [r rnd']. cbn [fst] in Hbit. rewrite Hbit.
    change (0 =? 0) with true. cbv iota.
    specialize (Hmono 11%nat (1 + 1) rnd'). lia.
  - unfold SkipListModel.RandomHeight_spec.
    change (Z.to_nat kMaxHeight) with (S 11).
    change (SkipListModel.RandomHeight_spec_loop Random_Next (S 11) 1 rnd)
      with (if 1 <? kMaxHeight then
              let '(r, rnd) := Random_Next rnd in
              if r mod 4 =? 0
              then SkipListModel.RandomHeight_spec_loop Random_Next 11 (1 + 1) rnd
              else (1, rnd)
            else (1, rnd)).
    change (1 <? kMaxHeight) with true. cbv iota.
    destruct (Random_Next rnd) as [r rnd']. cbn [fst snd] in *.
    destruct (Z.eqb_spec (r mod 4) 0); [contradiction|reflexivity].
Qed.

Lemma height_cases (h : Z) :
  1 <= h <= kMaxHeight ->
  h = 1 \/ h = 2 \/ h = 3 \/ h = 4 \/ h = 5 \/ h = 6 \/ h = 7 \/ h = 8
  \/ h = 9 \/ h = 10 \/ h = 11 \/ h = 12.
Proof. unfold kMaxHeight. lia. Qed.

Lemma Insert_steps (s s' : SkipList) (k : Key) (x : option nat) (h : Z) (rnd : Random) :
  FindGreatOrEqual s k true = Ok (x, s') ->
  RandomHeight (rnd_ s') = (h, rnd) ->
  Insert s k = Insert_at s' k h rnd.
Proof.
  intros Hfind Hh. unfold SkipListModel.Insert. rewrite Hfind. cbn [bind]. now rewrite Hh.
Qed.

(** C1: [Insert] never stores into the node it makes.  After the first
    [Insert] the head points to the new node at level 0, and the pointers of
    the node are what [NewNode] left: the one the constructor made and,
    above it, raw arena memory. *)
Theorem Insert_leaves_new_node_unset (rnd0 : Random) (k : Key) :
  match Insert (SkipList_new rnd0) k with
  | Ok s =>
      SkipListModel.Next s head_ 0 = Ok (Some 1%nat)
      /\ nodes s !! 1%nat
         = Some (mkNode k (default_rep atomic_value_init
                             :: replicate (Z.to_nat (fst (RandomHeight rnd0) - 1))
                                          Indeterminate))
  | _ => False
  end.
Proof.
  destruct (RandomHeight rnd0) as [h rnd] eqn:Hh.
  pose proof (RandomHeight_range rnd0) as Hr. rewrite Hh in Hr. cbn [fst] in *.
  assert (Hins : Insert (SkipList_new rnd0) k = Insert_at (SkipList_new rnd0) k h rnd).
  { apply Insert_steps with (x := None); [reflexivity | exact Hh]. }
  rewrite Hins. clear Hins Hh.
  destruct (height_cases h Hr) as [->|[->|[->|[->|[->|[->|[->|[->|[->|[->|[->| ->]]]]]]]]]]];
    vm_compute; split; reflexivity.
Qed.

End SkipListFacts.

Section SkipListOrder.
Import SkipListModel.

Context {Key : Type} (compare_ : Key -> Key -> Z) (key0 : Key).
Context {Random : Type} (Random_Next : Random -> Z * Random).
Variable atomic_value_init : bool.

(** C2: an [Insert] in front of a node does not return.  After [Insert(k1)] on
    a new list, which returns, [Insert(k2)] with a key that is not after [k1]
    faults, for every generator: it uses the indeterminate pointer of the
    first node, or it finds the head as predecessor and loads from the new
    node at the address of the first node taken as a level.  No [Contains]
    follows that could return [true] for the two keys. *)
Theorem Insert_before_node_faults (rnd0 : Random) (k1 k2 : Key) :
  0 <= compare_ k1 k2 ->
  exists s1,
    Insert compare_ Random_Next atomic_value_init (SkipList_new key0 rnd0) k1 = Ok s1
    /\ Insert compare_ Random_Next atomic_value_init s1 k2 = Fault
    /\ Insert_all compare_ Random_Next atomic_value_init (SkipList_new key0 rnd0) [k1; k2]
       = Fault.
Proof.
  intros Hc.
  destruct (RandomHeight Random_Next rnd0) as [h1 rnd1] eqn:Hh1.
  pose proof (RandomHeight_range Random_Next rnd0) as Hr1. rewrite Hh1 in Hr1. cbn [fst] in Hr1.
  destruct (RandomHeight Random_Next rnd1) as [h2 rnd2] eqn:Hh2.
  pose proof (RandomHeight_range Random_Next rnd1) as Hr2. rewrite Hh2 in Hr2. cbn [fst] in Hr2.
  cbn [Insert_all].
  rewrite (Insert_steps compare_ Random_Next atomic_value_init
             (SkipList_new key0 rnd0) (SkipList_new key0 rnd0) k1 None h1 rnd1 eq_refl Hh1).
  assert (Hsecond : forall s1,
            Insert_at atomic_value_init (SkipList_new key0 rnd0) k1 h1 rnd1 = Ok s1 ->
            Insert compare_ Random_Next atomic_value_init s1 k2 = Fault).
  { intros s1 Hs1. unfold Insert.
    destruct (FindGreatOrEqual compare_ s1 k2 true) as [[x s2]| |] eqn:F;
      [|reflexivity|exfalso].
    - cbv beta iota zeta delta [bind].
      assert (Hfault : rnd_ s2 = rnd1
                       /\ forall h, 1 <= h <= kMaxHeight ->
                            Insert_at atomic_value_init s2 k2 h rnd2 = Fault).
      { destruct (compare_ k1 k2) as [|c|c] eqn:Hcmp; [| |lia].
        all: destruct atomic_value_init;
          destruct (height_cases h1 Hr1)
            as [->|[->|[->|[->|[->|[->|[->|[->|[->|[->|[->| ->]]]]]]]]]]];
          vm_compute in Hs1; injection Hs1 as <-;
          repeat (progress (cbv in F; rewrite ?Hcmp in F));
          try discriminate F; injection F as <- <-;
          (split; [reflexivity|]);
          intros h Hh;
          destruct (height_cases h Hh)
            as [->|[->|[->|[->|[->|[->|[->|[->|[->|[->|[->| ->]]]]]]]]]]];
          vm_compute; reflexivity. }
      destruct Hfault as [Hrnd Hfault]. rewrite Hrnd, Hh2. now apply Hfault.
    - destruct (compare_ k1 k2) as [|c|c] eqn:Hcmp; [| |lia].
      all: destruct atomic_value_init;
        destruct (height_cases h1 Hr1)
          as [->|[->|[->|[->|[->|[->|[->|[->|[->|[->|[->| ->]]]]]]]]]]];
        vm_compute in Hs1; injection Hs1 as <-;
        repeat (progress (cbv in F; rewrite ?Hcmp in F)); discriminate F. }
  destruct (Insert_at atomic_value_init (SkipList_new key0 rnd0) k1 h1 rnd1)
    as [s1| |] eqn:Hs1.
  - exists s1. split; [reflexivity|]. pose proof (Hsecond s1 eq_refl) as Hf.
    split; [exact Hf|]. cbn [bind]. now rewrite Hf.
  - exfalso.
    destruct atomic_value_init;
      destruct (height_cases h1 Hr1)
        as [->|[->|[->|[->|[->|[->|[->|[->|[->|[->|[->| ->]]]]]]]]]]];
      vm_compute in Hs1; discriminate Hs1.
  - exfalso.
    destruct atomic_value_init;
      destruct (height_cases h1 Hr1)
        as [->|[->|[->|[->|[->|[->|[->|[->|[->|[->|[->| ->]]]]]]]]]]];
      vm_compute in Hs1; discriminate Hs1.
Qed.

End SkipListOrder.

Lemma RandomHeight_tests_bit_2_witness :
  2 <= fst (SkipListModel.RandomHeight SkipListModel.replay_Next [1; 4]) <= SkipListModel.kMaxHeight
  /\ SkipListModel.RandomHeight_spec SkipListModel.replay_Next [1; 4]
     = (1, snd (SkipListModel.replay_Next [1; 4])).
Proof.
  apply (RandomHeight_tests_bit_2 SkipListModel.replay_Next [1; 4]).
  - reflexivity.
  - vm_compute. discriminate.
Defined.

Lemma Insert_before_node_faults_witness :
  exists s1,
    SkipListModel.Insert SkipListModel.compare_Z SkipListModel.replay_Next true
      (SkipListModel.SkipList_new 0 [4; 4]) 5 = SkipListModel.Ok s1
    /\ SkipListModel.Insert SkipListModel.compare_Z SkipListModel.replay_Next true s1 3
       = SkipListModel.Fault
    /\ SkipListModel.Insert_all SkipListModel.compare_Z SkipListModel.replay_Next true
         (SkipListModel.SkipList_new 0 [4; 4]) [5; 3] = SkipListModel.Fault.
Proof.
  apply (Insert_before_node_faults SkipListModel.compare_Z 0 SkipListModel.replay_Next true
           [4; 4] 5 3).
  vm_compute. discriminate.
Defined.


(** ** util/coding: further properties *)

Section CodingMore.
Import Coding.

(** A length-prefixed string, the empty one included, is read back by both
    [GetLengthPrefixedSlice] overloads, which stop just behind it; so is a
    varint written by [PutVarint32] or [PutVarint64] by the [Slice]
    readers. *)
Theorem length_prefixed_round_trip (value rest result : Slice) (v32 v64 old : Z) :
  size value < 2 ^ 32 -> is_uint32 v32 -> is_uint64 v64 ->
  GetLengthPrefixedSlice (PutLengthPrefixedSlice [] value ++ rest) result
    = (true, rest, value)
  /\ GetLengthPrefixedSlicePtr (PutLengthPrefixedSlice [] value ++ rest)
     = Some (value, rest)
  /\ GetVarint32 (PutVarint32 [] v32 ++ rest) old = (true, rest, v32)
  /\ GetVarint64 (PutVarint64 [] v64 ++ rest) old = (true, rest, v64).
Proof.
  intros Hsz H32 H64. split; [|split; [|split]].
  - now apply GetLengthPrefixedSlice_Put.
  - unfold PutLengthPrefixedSlice, PutVarint32, GetLengthPrefixedSlicePtr. cbn [app].
    assert (Hu : uint32 (size value) = size value).
    { unfold uint32, size in *. apply Z.mod_small. lia. }
    rewrite Hu, <- app_assoc.
    rewrite GetVarint32Ptr_EncodeVarint32 by (unfold is_uint32, size in *; lia).
    destruct (Z.gtb_spec (size value) (size (value ++ rest))) as [Hgt|_].
    + unfold size in Hgt. rewrite length_app in Hgt. lia.
    + unfold size. rewrite Nat2Z.id. now rewrite take_app_length, drop_app_length.
  - unfold GetVarint32, PutVarint32. cbn [app].
    now rewrite GetVarint32Ptr_EncodeVarint32.
  - unfold GetVarint64, PutVarint64. cbn [app].
    now rewrite GetVarint64Ptr_EncodeVarint64.
Qed.

Lemma length_prefixed_round_trip_witness :
  GetLengthPrefixedSlice (PutLengthPrefixedSlice [] [] ++ [7; 8]) [9] = (true, [7; 8], [])
  /\ GetLengthPrefixedSlicePtr (PutLengthPrefixedSlice [] [] ++ [7; 8]) = Some ([], [7; 8])
  /\ GetVarint32 (PutVarint32 [] 300 ++ [7; 8]) 0 = (true, [7; 8], 300)
  /\ GetVarint64 (PutVarint64 [] (2 ^ 40) ++ [7; 8]) 0 = (true, [7; 8], 2 ^ 40).
Proof.
  apply (length_prefixed_round_trip [] [7; 8] [9] 300 (2 ^ 40) 0);
    unfold is_uint32, is_uint64, size; cbn; lia.
Defined.

(** The two overloads of [GetLengthPrefixedSlice] accept the same inputs and
    then yield the same string and the same rest. *)
Theorem GetLengthPrefixedSlice_overloads_agree (input result r : Slice) (rest : list Z) :
  GetLengthPrefixedSlicePtr input = Some (r, rest)
  <-> GetLengthPrefixedSlice input result = (true, rest, r).
Proof.
  unfold GetLengthPrefixedSlicePtr, GetLengthPrefixedSlice, GetVarint32, remove_prefix.
  destruct (GetVarint32Ptr input) as [[len p1]|]; cbn [andb].
  - destruct (Z.gtb_spec len (size p1)), (Z.geb_spec (size p1) len); try lia;
      split; intros Heq; try discriminate; inversion Heq; reflexivity.
  - split; discriminate.
Qed.

Lemma GetVarint32Ptr_is_fallback (p : list Z) :
  Forall is_uint8 p -> GetVarint32Ptr p = GetVarint32PtrFallback p.
Proof.
  intros Hp. unfold GetVarint32Ptr. destruct p as [|b p']; [reflexivity|].
  destruct (Z.eqb_spec (Z.land b 128) 0) as [Hb|Hb]; [|reflexivity].
  unfold GetVarint32PtrFallback. cbn [GetVarint32PtrFallback_loop].
  change (0 <=? 28) with true. cbv iota.
  destruct (Z.eqb_spec (Z.land b 128) 0); [|contradiction]. cbn [negb].
  inversion Hp as [|? ? Hb8 _]; subst. unfold is_uint8 in Hb8.
  rewrite Z.shiftl_0_r, Z.lor_0_l. unfold uint32. rewrite Z.mod_small by lia. reflexivity.
Qed.

(** The one-byte fast path of [GetVarint32Ptr] changes nothing: on bytes it
    returns what [GetVarint32PtrFallback] returns. *)
Theorem GetVarint32Ptr_fast_path (p : list Z) :
  Forall is_uint8 p -> GetVarint32Ptr p = GetVarint32PtrFallback p.
Proof. apply GetVarint32Ptr_is_fallback. Qed.

Lemma GetVarint32Ptr_fast_path_witness :
  GetVarint32Ptr [5; 200] = GetVarint32PtrFallback [5; 200].
Proof.
  apply (GetVarint32Ptr_fast_path [5; 200]).
  repeat constructor; unfold is_uint8; lia.
Defined.

(** The 32-bit and the 64-bit varint formats agree on 32-bit values: each
    decoder reads what the other encoder wrote. *)
Theorem varint32_varint64_interoperate (v : Z) (rest : list Z) :
  is_uint32 v ->
  EncodeVarint32 v = EncodeVarint64 v
  /\ GetVarint64Ptr (EncodeVarint32 v ++ rest) = Some (v, rest)
  /\ GetVarint32Ptr (EncodeVarint64 v ++ rest) = Some (v, rest).
Proof.
  intros Hv.
  assert (He : EncodeVarint32 v = EncodeVarint64 v) by now apply EncodeVarint32_as_loop.
  split; [exact He|]. split.
  - rewrite He. apply GetVarint64Ptr_EncodeVarint64. unfold is_uint32, is_uint64 in *. lia.
  - rewrite <- He. now apply GetVarint32Ptr_EncodeVarint32.
Qed.

Lemma varint32_varint64_interoperate_witness :
  EncodeVarint32 70000 = EncodeVarint64 70000
  /\ GetVarint64Ptr (EncodeVarint32 70000 ++ [1]) = Some (70000, [1])
  /\ GetVarint32Ptr (EncodeVarint64 70000 ++ [1]) = Some (70000, [1]).
Proof.
  apply (varint32_varint64_interoperate 70000 [1]). unfold is_uint32. lia.
Defined.

Lemma truncated32_loop (fuel : nat) : forall v shift result n,
  (n < length (EncodeVarint64_loop fuel v))%nat ->
  GetVarint32PtrFallback_loop shift result (take n (EncodeVarint64_loop fuel v)) = None.
Proof.
  assert (Hnil : forall shift result, GetVarint32PtrFallback_loop shift result [] = None).
  { intros. cbn. now destruct (shift <=? 28). }
  induction fuel as [|fuel IH]; intros v shift result n Hn;
    cbn [EncodeVarint64_loop] in *.
  - cbn [length] in Hn. assert (n = 0%nat) by lia. subst. apply Hnil.
  - destruct (Z.geb_spec v 128).
    + destruct n as [|n]; [apply Hnil|]. cbn [length] in Hn.
      rewrite continuation_byte. cbn [take GetVarint32PtrFallback_loop].
      destruct (shift <=? 28); [|reflexivity].
      rewrite continuation_flag. cbn [negb]. apply IH. lia.
    + cbn [length] in Hn. assert (n = 0%nat) by lia. subst. apply Hnil.
Qed.

Lemma truncated64_loop (fuel : nat) : forall v shift result n,
  (n < length (EncodeVarint64_loop fuel v))%nat ->
  GetVarint64Ptr_loop shift result (take n (EncodeVarint64_loop fuel v)) = None.
Proof.
  assert (Hnil : forall shift result, GetVarint64Ptr_loop shift result [] = None).
  { intros. cbn. now destruct (shift <=? 63). }
  induction fuel as [|fuel IH]; intros v shift result n Hn;
    cbn [EncodeVarint64_loop] in *.
  - cbn [length] in Hn. assert (n = 0%nat) by lia. subst. apply Hnil.
  - destruct (Z.geb_spec v 128).
    + destruct n as [|n]; [apply Hnil|]. cbn [length] in Hn.
      rewrite continuation_byte. cbn [take GetVarint64Ptr_loop].
      destruct (shift <=? 63); [|reflexivity].
      rewrite continuation_flag. cbn [negb]. apply IH. lia.
    + cbn [length] in Hn. assert (n = 0%nat) by lia. subst. apply Hnil.
Qed.

Lemma truncated_first_byte (fuel : nat) (v : Z) (n : nat) (b : Z) (p' : list Z) :
  take (S n) (EncodeVarint64_loop fuel v) = b :: p' ->
  (S n < length (EncodeVarint64_loop fuel v))%nat ->
  (Z.land b 128 =? 0) = false.
Proof.
  destruct fuel as [|fuel]; cbn [EncodeVarint64_loop]; [cbn [length]; lia|].
  destruct (v >=? 128); [|cbn [length]; lia].
  rewrite continuation_byte. cbn [take]. intros [= <- _] _. apply continuation_flag.
Qed.

(** A truncated varint is refused: on every proper prefix of the encoding of a
    value the decoders return [nullptr], and the [Slice] readers return
    [false] with the input and the value as they were. *)
Theorem truncated_varint_fails (v32 v64 old : Z) (n32 n64 : nat) :
  is_uint32 v32 -> is_uint64 v64 ->
  (n32 < length (EncodeVarint32 v32))%nat ->
  (n64 < length (EncodeVarint64 v64))%nat ->
  GetVarint32Ptr (take n32 (EncodeVarint32 v32)) = None
  /\ GetVarint32 (take n32 (EncodeVarint32 v32)) old
     = (false, take n32 (EncodeVarint32 v32), old)
  /\ GetVarint64Ptr (take n64 (EncodeVarint64 v64)) = None
  /\ GetVarint64 (take n64 (EncodeVarint64 v64)) old
     = (false, take n64 (EncodeVarint64 v64), old).
Proof.
  intros H32 H64 Hn32 Hn64.
  assert (A : GetVarint32Ptr (take n32 (EncodeVarint32 v32)) = None).
  { rewrite EncodeVarint32_as_loop in * by assumption.
    assert (Hfb : GetVarint32PtrFallback (take n32 (EncodeVarint64_loop 64 v32)) = None)
      by (now apply truncated32_loop).
    unfold GetVarint32Ptr.
    destruct (take n32 (EncodeVarint64_loop 64 v32)) as [|b p'] eqn:E; [exact Hfb|].
    destruct (Z.eqb_spec (Z.land b 128) 0) as [Hb|Hb]; [|exact Hfb].
    exfalso. destruct n32 as [|n]; [discriminate|].
    pose proof (truncated_first_byte 64 v32 n b p' E Hn32) as F.
    apply Z.eqb_neq in F. contradiction. }
  assert (B : GetVarint64Ptr (take n64 (EncodeVarint64 v64)) = None)
    by (now apply truncated64_loop).
  unfold GetVarint32, GetVarint64. rewrite A, B. repeat split; reflexivity.
Qed.

Lemma truncated_varint_fails_witness :
  GetVarint32Ptr (take 1 (EncodeVarint32 300)) = None
  /\ GetVarint32 (take 1 (EncodeVarint32 300)) 9 = (false, take 1 (EncodeVarint32 300), 9)
  /\ GetVarint64Ptr (take 3 (EncodeVarint64 (2 ^ 40))) = None
  /\ GetVarint64 (take 3 (EncodeVarint64 (2 ^ 40))) 9
     = (false, take 3 (EncodeVarint64 (2 ^ 40)), 9).
Proof.
  apply (truncated_varint_fails 300 (2 ^ 40) 9 1 3);
    first [unfold is_uint32, is_uint64; lia | vm_compute; lia].
Defined.

Lemma continuation_run32 (pre : list Z) : forall shift result rest,
  Forall (fun b => Z.land b 128 <> 0) pre ->
  28 < shift + 7 * Z.of_nat (length pre) ->
  GetVarint32PtrFallback_loop shift result (pre ++ rest) = None.
Proof.
  induction pre as [|b pre IH]; intros shift result rest Hpre Hlen.
  - cbn [length] in Hlen. destruct rest; cbn;
      destruct (Z.leb_spec shift 28); try lia; reflexivity.
  - inversion Hpre as [|? ? Hb Hrest]; subst. cbn [app GetVarint32PtrFallback_loop].
    destruct (shift <=? 28); [|reflexivity].
    destruct (Z.eqb_spec (Z.land b 128) 0); [contradiction|]. cbn [negb].
    apply IH; [assumption|]. cbn [length] in Hlen. lia.
Qed.

Lemma continuation_run64 (pre : list Z) : forall shift result rest,
  Forall (fun b => Z.land b 128 <> 0) pre ->
  63 < shift + 7 * Z.of_nat (length pre) ->
  GetVarint64Ptr_loop shift result (pre ++ rest) = None.
Proof.
  induction pre as [|b pre IH]; intros shift result rest Hpre Hlen.
  - cbn [length] in Hlen. destruct rest; cbn;
      destruct (Z.leb_spec shift 63); try lia; reflexivity.
  - inversion Hpre as [|? ? Hb Hrest]; subst. cbn [app GetVarint64Ptr_loop].
    destruct (shift <=? 63); [|reflexivity].
    destruct (Z.eqb_spec (Z.land b 128) 0); [contradiction|]. cbn [negb].
    apply IH; [assumption|]. cbn [length] in Hlen. lia.
Qed.

(** An over-long varint is refused: five bytes with the continuation bit set
    make [GetVarint32Ptr] return [nullptr] whatever follows them, and ten make
    [GetVarint64Ptr] do so. *)
Theorem overlong_varint_fails (pre rest : list Z) :
  Forall (fun b => Z.land b 128 <> 0) pre ->
  ((5 <= length pre)%nat -> GetVarint32Ptr (pre ++ rest) = None)
  /\ ((10 <= length pre)%nat -> GetVarint64Ptr (pre ++ rest) = None).
Proof.
  intros Hpre. split; intros Hlen.
  - unfold GetVarint32Ptr.
    assert (Hfb : GetVarint32PtrFallback (pre ++ rest) = None)
      by (apply continuation_run32; [assumption|lia]).
    destruct pre as [|b pre]; [cbn in Hlen; lia|]. cbn [app] in *.
    inversion Hpre; subst.
    destruct (Z.eqb_spec (Z.land b 128) 0); [contradiction|exact Hfb].
  - apply continuation_run64; [assumption|lia].
Qed.

Lemma overlong_varint_fails_witness :
  ((5 <= length [255; 255; 255; 255; 255; 255; 255; 255; 255; 255])%nat ->
     GetVarint32Ptr ([255; 255; 255; 255; 255; 255; 255; 255; 255; 255] ++ [1]) = None)
  /\ ((10 <= length [255; 255; 255; 255; 255; 255; 255; 255; 255; 255])%nat ->
        GetVarint64Ptr ([255; 255; 255; 255; 255; 255; 255; 255; 255; 255] ++ [1]) = None).
Proof.
  apply (overlong_varint_fails [255; 255; 255; 255; 255; 255; 255; 255; 255; 255] [1]).
  repeat constructor; vm_compute; discriminate.
Defined.

Lemma lor_range (a b n : Z) :
  0 <= n -> 0 <= a < 2 ^ n -> 0 <= b < 2 ^ n -> 0 <= Z.lor a b < 2 ^ n.
Proof.
  intros Hn Ha Hb. split; [apply Z.lor_nonneg; lia|].
  destruct (Z.eq_dec (Z.lor a b) 0) as [->|Hne]; [apply Z.pow_pos_nonneg; lia|].
  assert (Hpos : 0 < n).
  { destruct (Z.eq_dec n 0) as [->|]; [|lia]. exfalso. apply Hne.
    change (2 ^ 0) with 1 in *. replace a with 0 by lia. replace b with 0 by lia.
    reflexivity. }
  apply Z.log2_lt_pow2; [pose proof (proj2 (Z.lor_nonneg a b)); lia|].
  rewrite Z.log2_lor by lia. apply Z.max_lub_lt.
  - destruct (Z.eq_dec a 0) as [->|]; [simpl; lia|]. apply Z.log2_lt_pow2; lia.
  - destruct (Z.eq_dec b 0) as [->|]; [simpl; lia|]. apply Z.log2_lt_pow2; lia.
Qed.

Lemma decoded32_loop (p : list Z) : forall shift result v rest,
  0 <= shift -> 0 <= result < 2 ^ 32 ->
  GetVarint32PtrFallback_loop shift result p = Some (v, rest) ->
  0 <= v < 2 ^ 32
  /\ exists used, p = used ++ rest /\ (1 <= length used)%nat
                  /\ shift + 7 * Z.of_nat (length used) <= 35.
Proof.
  induction p as [|b p IH]; intros shift result v rest Hs Hr H;
    cbn [GetVarint32PtrFallback_loop] in H.
  - destruct (shift <=? 28); discriminate.
  - destruct (Z.leb_spec shift 28); [|discriminate].
    destruct (Z.land b 128 =? 0); cbn [negb] in H.
    + injection H as <- <-. split.
      * apply lor_range; [lia|assumption|]. unfold uint32. apply Z.mod_pos_bound. lia.
      * exists [b]. cbn. repeat split; lia.
    + apply IH in H; [|lia|].
      * destruct H as [Hv (used & -> & Hlen & Hsh)]. split; [assumption|].
        exists (b :: used). cbn [app length]. repeat split; lia.
      * apply lor_range; [lia|assumption|]. unfold uint32. apply Z.mod_pos_bound. lia.
Qed.

Lemma decoded64_loop (p : list Z) : forall shift result v rest,
  0 <= shift -> 0 <= result < 2 ^ 64 ->
  GetVarint64Ptr_loop shift result p = Some (v, rest) ->
  0 <= v < 2 ^ 64
  /\ exists used, p = used ++ rest /\ (1 <= length used)%nat
                  /\ shift + 7 * Z.of_nat (length used) <= 70.
Proof.
  induction p as [|b p IH]; intros shift result v rest Hs Hr H;
    cbn [GetVarint64Ptr_loop] in H.
  - destruct (shift <=? 63); discriminate.
  - destruct (Z.leb_spec shift 63); [|discriminate].
    destruct (Z.land b 128 =? 0); cbn [negb] in H.
    + injection H as <- <-. split.
      * apply lor_range; [lia|assumption|]. unfold uint64. apply Z.mod_pos_bound. lia.
      * exists [b]. cbn. repeat split; lia.
    + apply IH in H; [|lia|].
      * destruct H as [Hv (used & -> & Hlen & Hsh)]. split; [assumption|].
        exists (b :: used). cbn [app length]. repeat split; lia.
      * apply lor_range; [lia|assumption|]. unfold uint64. apply Z.mod_pos_bound. lia.
Qed.

(** What a successful decode returns: a value of the width asked for, and the
    input behind the one to five (one to ten) bytes it has read. *)
Theorem decoded_varint_bounds (p rest : list Z) (v : Z) :
  Forall is_uint8 p ->
  (GetVarint32Ptr p = Some (v, rest) ->
     is_uint32 v
     /\ exists used, p = used ++ rest /\ (1 <= length used <= 5)%nat)
  /\ (GetVarint64Ptr p = Some (v, rest) ->
        is_uint64 v
        /\ exists used, p = used ++ rest /\ (1 <= length used <= 10)%nat).
Proof.
  intros Hp. split; intros H.
  - rewrite GetVarint32Ptr_is_fallback in H by assumption.
    apply decoded32_loop in H; [|lia|lia].
    destruct H as [Hv (used & -> & Hlen & Hsh)]. split; [exact Hv|].
    exists used. repeat split; lia.
  - apply decoded64_loop in H; [|lia|lia].
    destruct H as [Hv (used & -> & Hlen & Hsh)]. split; [exact Hv|].
    exists used. repeat split; lia.
Qed.

Lemma decoded_varint_bounds_witness :
  (GetVarint32Ptr [172; 2; 9] = Some (300, [9]) ->
     is_uint32 300
     /\ exists used, [172; 2; 9] = used ++ [9] /\ (1 <= length used <= 5)%nat)
  /\ (GetVarint64Ptr [172; 2; 9] = Some (300, [9]) ->
        is_uint64 300
        /\ exists used, [172; 2; 9] = used ++ [9] /\ (1 <= length used <= 10)%nat).
Proof.
  apply (decoded_varint_bounds [172; 2; 9] [9] 300).
  repeat constructor; unfold is_uint8; lia.
Defined.

Lemma VarintLength_loop_log2 (fuel : nat) : forall v len,
  0 <= v < 2 ^ (7 * (Z.of_nat fuel + 1)) ->
  VarintLength_loop fuel v len = len + Z.log2 v / 7.
Proof.
  assert (Hsmall : forall v, 0 <= v < 128 -> Z.log2 v / 7 = 0).
  { intros v Hv. destruct (Z.eq_dec v 0) as [->|]; [reflexivity|].
    assert (Z.log2 v < 7) by (apply Z.log2_lt_pow2; lia).
    pose proof (Z.log2_nonneg v). dlia. }
  induction fuel as [|fuel IH]; intros v len Hv; cbn [VarintLength_loop].
  - rewrite Hsmall by (simpl in Hv; lia). lia.
  - destruct (Z.geb_spec v 128).
    + rewrite IH.
      * rewrite Z.log2_shiftr by lia.
        assert (7 <= Z.log2 v) by (apply Z.log2_le_pow2; lia).
        rewrite Z.max_r by lia. dlia.
      * apply shiftr7_lt; [lia|].
        replace (7 * (Z.of_nat fuel + 1) + 7) with (7 * (Z.of_nat (S fuel) + 1)) by lia. lia.
    + rewrite Hsmall by lia. lia.
Qed.

(** [VarintLength] in closed form: one byte, and one more for every seven bits
    of the value beyond the first seven. *)
Theorem VarintLength_closed_form (v : Z) :
  is_uint64 v -> VarintLength v = 1 + Z.log2 v / 7.
Proof.
  unfold is_uint64. intros Hv. unfold VarintLength. apply VarintLength_loop_log2.
  assert (2 ^ 64 <= 2 ^ (7 * (Z.of_nat 64 + 1))) by (apply Z.pow_le_mono_r; lia). lia.
Qed.

Lemma VarintLength_closed_form_witness : VarintLength (2 ^ 35) = 1 + Z.log2 (2 ^ 35) / 7.
Proof. apply (VarintLength_closed_form (2 ^ 35)). unfold is_uint64. lia. Defined.

(** The shape of a varint: every byte written is a byte, every byte but the
    last has the continuation bit set, and the last has it clear. *)
Theorem EncodeVarint64_shape (v : Z) :
  is_uint64 v ->
  exists init final,
    EncodeVarint64 v = init ++ [final]
    /\ Forall (fun b => 128 <= b < 256) init /\ 0 <= final < 128.
Proof.
  unfold is_uint64, EncodeVarint64. intros Hv.
  assert (Hgen : forall fuel v, 0 <= v < 2 ^ (7 * (Z.of_nat fuel + 1)) ->
            exists init final,
              EncodeVarint64_loop fuel v = init ++ [final]
              /\ Forall (fun b => 128 <= b < 256) init /\ 0 <= final < 128).
  { clear. induction fuel as [|fuel IH]; intros v Hv; cbn [EncodeVarint64_loop].
    - exists [], v. simpl in Hv. rewrite uint8_small by lia.
      repeat split; [constructor|lia|lia].
    - destruct (Z.geb_spec v 128).
      + destruct (IH (Z.shiftr v 7)) as (init & final & -> & Hinit & Hfinal).
        { apply shiftr7_lt; [lia|].
          replace (7 * (Z.of_nat fuel + 1) + 7) with (7 * (Z.of_nat (S fuel) + 1)) by lia. lia. }
        exists (uint8 (Z.lor (Z.land v (128 - 1)) 128) :: init), final.
        repeat split; try assumption; try lia.
        constructor; [|assumption]. rewrite continuation_byte.
        pose proof (land127_range v).
        rewrite Z.or_to_plus; [lia|].
        change 127 with (Z.ones 7). change 128 with (2 ^ 7). zbits.
      + exists [], v. rewrite uint8_small by lia. repeat split; [constructor|lia|lia]. }
  apply Hgen.
  assert (2 ^ 64 <= 2 ^ (7 * (Z.of_nat 64 + 1))) by (apply Z.pow_le_mono_r; lia). lia.
Qed.

Lemma EncodeVarint64_shape_witness :
  exists init final,
    EncodeVarint64 300 = init ++ [final]
    /\ Forall (fun b => 128 <= b < 256) init /\ 0 <= final < 128.
Proof. apply (EncodeVarint64_shape 300). unfold is_uint64. lia. Defined.

(** The fixed-width codecs are inverse to each other: the four bytes of
    [EncodeFixed32] decode to the value, the eight of [EncodeFixed64] too, and
    every byte written is a byte. *)
Theorem Fixed_round_trip (v32 v64 : Z) (rest : list Z) :
  is_uint32 v32 -> is_uint64 v64 ->
  DecodeFixed32 (PutFixed32 [] v32 ++ rest) = v32
  /\ DecodeFixed64 (PutFixed64 [] v64 ++ rest) = v64
  /\ length (EncodeFixed32 v32) = 4%nat /\ length (EncodeFixed64 v64) = 8%nat
  /\ Forall is_uint8 (EncodeFixed32 v32) /\ Forall is_uint8 (EncodeFixed64 v64).
Proof.
  unfold is_uint32, is_uint64. intros H32 H64.
  assert (Hdec : forall v tail, 0 <= v ->
            DecodeFixed32 (EncodeFixed32 v ++ tail) = v mod 2 ^ 32).
  { intros v tail Hv. unfold DecodeFixed32, EncodeFixed32, byte_at, uint8. cbn.
    Z.bitblast. }
  assert (Hbytes : forall v, Forall is_uint8 (EncodeFixed32 v)).
  { intros v. unfold EncodeFixed32, uint8, is_uint8.
    repeat constructor; apply Z.mod_pos_bound; lia. }
  split; [|split; [|split; [|split; [|split]]]].
  - unfold PutFixed32. cbn [app]. rewrite Hdec by lia. apply Z.mod_small. lia.
  - unfold PutFixed64, EncodeFixed64, DecodeFixed64. cbn [app].
    rewrite <- app_assoc. rewrite Hdec by lia.
    replace (drop 4 (EncodeFixed32 v64 ++ EncodeFixed32 (Z.shiftr v64 32) ++ rest))
      with (EncodeFixed32 (Z.shiftr v64 32) ++ rest) by reflexivity.
    rewrite Hdec by (apply Z.shiftr_nonneg; lia).
    rewrite <- (Z.mod_small v64 (2 ^ 64)) at 3 by lia.
    Z.bitblast.
  - reflexivity.
  - reflexivity.
  - apply Hbytes.
  - unfold EncodeFixed64. apply Forall_app. split; apply Hbytes.
Qed.

Lemma Fixed_round_trip_witness :
  DecodeFixed32 (PutFixed32 [] 0xdeadbeef ++ [1]) = 0xdeadbeef
  /\ DecodeFixed64 (PutFixed64 [] (2 ^ 64 - 2) ++ [1]) = 2 ^ 64 - 2
  /\ length (EncodeFixed32 0xdeadbeef) = 4%nat /\ length (EncodeFixed64 (2 ^ 64 - 2)) = 8%nat
  /\ Forall is_uint8 (EncodeFixed32 0xdeadbeef) /\ Forall is_uint8 (EncodeFixed64 (2 ^ 64 - 2)).
Proof.
  apply (Fixed_round_trip 0xdeadbeef (2 ^ 64 - 2) [1]); unfold is_uint32, is_uint64; lia.
Defined.

End CodingMore.

(** ** util/coding: further properties of the bit-packed integers *)

Section BitStreamMore.
Import Coding.

Lemma byte_at_range (buf : list Z) (i : nat) :
  Forall is_uint8 buf -> 0 <= byte_at buf i < 2 ^ 8.
Proof.
  intros Hb. unfold byte_at. destruct (buf !! i) as [b|] eqn:E; cbn; [|lia].
  rewrite Forall_lookup in Hb. exact (Hb i b E).
Qed.

Lemma bytes_eq_by_bits (l1 l2 : list Z) :
  length l1 = length l2 -> Forall is_uint8 l1 -> Forall is_uint8 l2 ->
  (forall i, 0 <= i -> bit_at l1 i = bit_at l2 i) -> l1 = l2.
Proof.
  intros Hlen H1 H2 Hbits. apply list_eq. intros idx.
  destruct (l1 !! idx) as [b1|] eqn:E1, (l2 !! idx) as [b2|] eqn:E2.
  - f_equal.
    assert (R1 : 0 <= b1 < 2 ^ 8) by (rewrite Forall_lookup in H1; exact (H1 idx b1 E1)).
    assert (R2 : 0 <= b2 < 2 ^ 8) by (rewrite Forall_lookup in H2; exact (H2 idx b2 E2)).
    apply Z.bits_inj'. intros k Hk.
    destruct (Z.lt_ge_cases k 8).
    + specialize (Hbits (8 * Z.of_nat idx + k) ltac:(lia)).
      rewrite !bit_at_split in Hbits by lia. rewrite Nat2Z.id in Hbits.
      unfold byte_at in Hbits. now rewrite E1, E2 in Hbits.
    + rewrite (testbit_above b1 8 k), (testbit_above b2 8 k) by lia. reflexivity.
  - apply lookup_lt_Some in E1. apply lookup_ge_None in E2. lia.
  - apply lookup_ge_None in E1. apply lookup_lt_Some in E2. lia.
  - reflexivity.
Qed.

Lemma BitStreamPutInt_loop_bytes (fuel : nat) : forall buf Bo bo bits value,
  Forall is_uint8 buf ->
  Forall is_uint8 (BitStreamPutInt_loop fuel buf Bo bo bits value).
Proof.
  induction fuel as [|fuel IH]; intros buf Bo bo bits value Hb;
    cbn [BitStreamPutInt_loop]; [assumption|].
  destruct (bits >? 0); [|assumption]. cbv zeta. apply IH.
  apply Forall_insert; [assumption|]. unfold is_uint8, uint8. apply Z.mod_pos_bound. lia.
Qed.

Lemma BitStreamPutInt_bits (buf : list Z) (offset bits value i : Z) :
  0 <= offset -> 0 <= bits ->
  (offset + bits + 7) / 8 <= Z.of_nat (length buf) -> 0 <= i ->
  bit_at (BitStreamPutInt buf offset bits value) i
  = if (offset <=? i) && (i <? offset + bits)
    then Z.testbit value (i - offset) else bit_at buf i.
Proof.
  intros Ho Hb Hlen Hi. unfold BitStreamPutInt.
  assert (Hdm : offset = 8 * (offset / 8) + offset mod 8) by dlia.
  rewrite BitStreamPutInt_loop_bits by dlia. now rewrite <- Hdm.
Qed.

Lemma BitStreamGetInt_bits (buf : list Z) (offset bits j : Z) :
  0 <= offset -> 0 <= bits <= 64 -> 0 <= j ->
  0 <= BitStreamGetInt buf offset bits < 2 ^ bits
  /\ Z.testbit (BitStreamGetInt buf offset bits) j
     = (j <? bits) && bit_at buf (offset + j).
Proof.
  intros Ho Hb Hj. unfold BitStreamGetInt.
  assert (Hdm : offset = 8 * (offset / 8) + offset mod 8) by dlia.
  destruct (BitStreamGetInt_loop_bits (Z.to_nat bits) buf (offset / 8) (offset mod 8)
              0 bits 0) as [HR Hbits]; try dlia.
  cbv zeta in HR, Hbits. rewrite Z.add_0_l in HR. split; [exact HR|].
  rewrite Hbits by assumption.
  destruct (Z.ltb_spec j 0); [lia|]. now rewrite Z.add_0_l, Z.sub_0_r, <- Hdm.
Qed.

(** Fields that do not overlap do not interfere: writing one field leaves what
    [BitStreamGetInt] reads from any other as it was; and what is read from a
    field of [bits] bits is below [2 ^ bits]. *)
Theorem BitStream_fields_independent (buf : list Z) (o1 w1 v o2 w2 : Z) :
  0 <= o1 -> 0 <= w1 <= 64 -> (o1 + w1 + 7) / 8 <= Z.of_nat (length buf) ->
  0 <= o2 -> 0 <= w2 <= 64 ->
  o2 + w2 <= o1 \/ o1 + w1 <= o2 ->
  BitStreamGetInt (BitStreamPutInt buf o1 w1 v) o2 w2 = BitStreamGetInt buf o2 w2
  /\ 0 <= BitStreamGetInt buf o2 w2 < 2 ^ w2.
Proof.
  intros Ho1 Hw1 Hlen Ho2 Hw2 Hdis. split.
  - apply Z.bits_inj'. intros j Hj.
    rewrite !(proj2 (BitStreamGetInt_bits _ o2 w2 j Ho2 Hw2 Hj)).
    destruct (Z.ltb_spec j w2); [|reflexivity]. cbn [andb].
    rewrite BitStreamPutInt_bits by lia.
    destruct (Z.leb_spec o1 (o2 + j)), (Z.ltb_spec (o2 + j) (o1 + w1)); try lia; reflexivity.
  - apply (BitStreamGetInt_bits buf o2 w2 0); lia.
Qed.

Lemma BitStream_fields_independent_witness :
  BitStreamGetInt (BitStreamPutInt [1; 2; 3; 4] 3 10 0x2aa) 13 11
  = BitStreamGetInt [1; 2; 3; 4] 13 11
  /\ 0 <= BitStreamGetInt [1; 2; 3; 4] 13 11 < 2 ^ 11.
Proof.
  apply (BitStream_fields_independent [1; 2; 3; 4] 3 10 0x2aa 13 11);
    first [lia | vm_compute; discriminate].
Defined.

(** On a buffer of bytes, writing back what was read from a field changes
    nothing; and of two writes to one field the second is the one read. *)
Theorem BitStream_write_laws (buf : list Z) (offset bits v1 v2 : Z) :
  Forall is_uint8 buf ->
  0 <= offset -> 0 <= bits <= 64 ->
  (offset + bits + 7) / 8 <= Z.of_nat (length buf) ->
  BitStreamPutInt buf offset bits (BitStreamGetInt buf offset bits) = buf
  /\ BitStreamGetInt (BitStreamPutInt (BitStreamPutInt buf offset bits v1) offset bits v2)
       offset bits = v2 mod 2 ^ bits.
Proof.
  intros Hbytes Ho Hb Hlen.
  assert (Hput_bytes : forall v, Forall is_uint8 (BitStreamPutInt buf offset bits v)).
  { intros v. now apply BitStreamPutInt_loop_bytes. }
  assert (Hput_len : forall v, length (BitStreamPutInt buf offset bits v) = length buf).
  { intros v. apply BitStreamPutInt_loop_length. }
  split.
  - apply bytes_eq_by_bits; [apply Hput_len|apply Hput_bytes|assumption|].
    intros i Hi. rewrite BitStreamPutInt_bits by lia.
    destruct (Z.leb_spec offset i), (Z.ltb_spec i (offset + bits)); try reflexivity.
    cbn [andb].
    rewrite (proj2 (BitStreamGetInt_bits buf offset bits (i - offset) Ho Hb ltac:(lia))).
    destruct (Z.ltb_spec (i - offset) bits); [|lia]. cbn [andb]. f_equal. lia.
  - apply Z.bits_inj'. intros j Hj.
    rewrite (proj2 (BitStreamGetInt_bits _ offset bits j Ho Hb Hj)).
    rewrite Z.testbit_mod_pow2 by lia.
    destruct (Z.ltb_spec j bits); [|reflexivity]. cbn [andb].
    rewrite BitStreamPutInt_bits; try lia.
    + destruct (Z.leb_spec offset (offset + j)), (Z.ltb_spec (offset + j) (offset + bits));
        try lia. cbn [andb]. f_equal. lia.
    + now rewrite Hput_len.
Qed.

Lemma BitStream_write_laws_witness :
  BitStreamPutInt [1; 2; 3; 4] 3 10 (BitStreamGetInt [1; 2; 3; 4] 3 10) = [1; 2; 3; 4]
  /\ BitStreamGetInt (BitStreamPutInt (BitStreamPutInt [1; 2; 3; 4] 3 10 0x2aa) 3 10 0x155)
       3 10 = 0x155 mod 2 ^ 10.
Proof.
  apply (BitStream_write_laws [1; 2; 3; 4] 3 10 0x2aa 0x155);
    first [lia | vm_compute; discriminate | repeat constructor; unfold is_uint8; lia].
Defined.

End BitStreamMore.

Section BitStreamString.
Import Coding.

Lemma copy_back_byte_at (f : nat -> Z) (base : nat) (k : nat) : forall (d : list Z) (j : nat),
  byte_at (fold_left (fun d idx => <[(base + idx)%nat := f idx]> d) (seq 0 k) d) j
  = if ((base <=? j) && (j <? base + k) && (j <? length d))%nat
    then f (j - base)%nat else byte_at d j.
Proof.
  induction k as [|k IH]; intros d j.
  - cbn [seq fold_left]. destruct (Nat.leb_spec base j), (Nat.ltb_spec j (base + 0)%nat);
      try lia; reflexivity.
  - rewrite seq_S, fold_left_app. cbn [fold_left Nat.add].
    set (d' := fold_left _ (seq 0 k) d).
    assert (Hlen : length d' = length d).
    { subst d'. clear. generalize (seq 0 k). intros l. revert d.
      induction l as [|i l IHl]; intros d; cbn [fold_left]; [reflexivity|].
      now rewrite IHl, length_insert. }
    destruct (Nat.eq_dec (base + k)%nat j) as [<-|Hne].
    + destruct (Nat.ltb_spec (base + k)%nat (length d)) as [Hin|Hout].
      * unfold byte_at at 1. rewrite list_lookup_insert_eq by lia. cbn [default id].
        destruct (Nat.leb_spec base (base + k)%nat), (Nat.ltb_spec (base + k)%nat (base + S k)%nat);
          try lia. cbn [andb]. f_equal. lia.
      * rewrite list_insert_ge by lia. subst d'. rewrite IH.
        destruct (Nat.ltb_spec (base + k)%nat (base + k)%nat); [lia|].
        rewrite !andb_false_r. reflexivity.
    + unfold byte_at at 1. rewrite list_lookup_insert_ne by assumption.
      fold (byte_at d' j). subst d'. rewrite IH.
      destruct (Nat.leb_spec base j), (Nat.ltb_spec j (base + k)%nat),
               (Nat.ltb_spec j (base + S k)%nat); cbn [andb]; try lia; reflexivity.
Qed.

Lemma copy_back_length (f : nat -> Z) (base : nat) (idxs : list nat) : forall d : list Z,
  length (fold_left (fun d idx => <[(base + idx)%nat := f idx]> d) idxs d) = length d.
Proof.
  induction idxs as [|i l IH]; intros d; cbn [fold_left]; [reflexivity|].
  now rewrite IH, length_insert.
Qed.

Lemma copy_back_bytes (f : nat -> Z) (base : nat) (idxs : list nat) : forall d : list Z,
  (forall i, is_uint8 (f i)) -> Forall is_uint8 d ->
  Forall is_uint8 (fold_left (fun d idx => <[(base + idx)%nat := f idx]> d) idxs d).
Proof.
  induction idxs as [|i l IH]; intros d Hf Hd; cbn [fold_left]; [assumption|].
  apply IH; [assumption|]. apply Forall_insert; [assumption|apply Hf].
Qed.

Lemma byte_at_tabulate (g : nat -> Z) (n idx : nat) :
  (idx < n)%nat -> byte_at (map g (seq 0 n)) idx = g idx.
Proof.
  intros H. unfold byte_at.
  change (map g (seq 0 n)) with (g <$> seq 0 n).
  rewrite list_lookup_fmap, lookup_seq_lt by assumption. reflexivity.
Qed.

(** The [std::string] overload of [BitStreamPutInt] does what the pointer
    overload does on the whole buffer, whatever its nine-byte scratch buffer
    held before. *)
Theorem BitStreamPutInt_string_agrees (tmp_rest : Z) (dst : list Z)
    (offset bits value : Z) :
  Forall is_uint8 dst -> is_uint8 tmp_rest ->
  0 <= offset -> 0 <= bits <= 64 ->
  (offset + bits + 7) / 8 <= Z.of_nat (length dst) ->
  BitStreamPutInt_string tmp_rest dst offset bits value
  = BitStreamPutInt dst offset bits value.
Proof.
  intros Hdst Htmp Ho Hb Hlen. unfold BitStreamPutInt_string. cbv zeta.
  set (kUsed := Z.to_nat ((offset mod 8 + bits) / 8)).
  set (base := Z.to_nat (offset / 8)).
  set (tmpBuf := map (fun idx => if (idx <=? kUsed)%nat then byte_at dst (base + idx)
                                 else tmp_rest) (seq 0 9)).
  set (tmpBuf' := BitStreamPutInt tmpBuf (offset mod 8) bits value).
  assert (HkUsed : (kUsed <= 8)%nat) by (subst kUsed; dlia).
  assert (Htmp_bytes : Forall is_uint8 tmpBuf).
  { subst tmpBuf. apply List.Forall_forall. intros b Hb'.
    apply in_map_iff in Hb'. destruct Hb' as (idx & <- & _).
    destruct (idx <=? kUsed)%nat; [apply byte_at_range; assumption|assumption]. }
  assert (Htmp'_bytes : Forall is_uint8 tmpBuf')
    by (subst tmpBuf'; now apply BitStreamPutInt_loop_bytes).
  assert (Htmp_len : length tmpBuf = 9%nat) by reflexivity.
  apply bytes_eq_by_bits.
  - rewrite copy_back_length. symmetry. apply BitStreamPutInt_loop_length.
  - apply copy_back_bytes; [|assumption]. intros i. now apply byte_at_range.
  - now apply BitStreamPutInt_loop_bytes.
  - intros i Hi. rewrite BitStreamPutInt_bits by (try assumption; lia).
    unfold bit_at at 1. rewrite copy_back_byte_at.
    set (j := Z.to_nat (i / 8)).
    assert (Hin : offset <= i < offset + bits ->
              (base <= j)%nat /\ (j < base + S kUsed)%nat /\ (j < length dst)%nat)
      by (subst j base kUsed; intros; dlia).
    destruct (Nat.leb_spec base j), (Nat.ltb_spec j (base + S kUsed)%nat),
             (Nat.ltb_spec j (length dst)); cbn [andb].
    2-8: destruct (Z.leb_spec offset i), (Z.ltb_spec i (offset + bits)); cbn [andb];
         try reflexivity; exfalso; lia.
    assert (Hbit : Z.testbit (byte_at tmpBuf' (j - base)) (i mod 8)
                   = bit_at tmpBuf' (8 * Z.of_nat (j - base) + i mod 8)).
    { rewrite bit_at_split by dlia. now rewrite Nat2Z.id. }
    rewrite Hbit. subst tmpBuf'. rewrite BitStreamPutInt_bits; try dlia.
    replace (8 * Z.of_nat (j - base) + i mod 8 - offset mod 8) with (i - offset)
      by (subst j base; dlia).
    destruct (Z.leb_spec (offset mod 8) (8 * Z.of_nat (j - base) + i mod 8)),
             (Z.ltb_spec (8 * Z.of_nat (j - base) + i mod 8) (offset mod 8 + bits)),
             (Z.leb_spec offset i), (Z.ltb_spec i (offset + bits));
      cbn [andb]; try reflexivity; try (exfalso; subst j base; dlia).
    all: rewrite bit_at_split by dlia; rewrite Nat2Z.id; subst tmpBuf;
         rewrite byte_at_tabulate by lia;
         (destruct (Nat.leb_spec (j - base) kUsed); [|lia]);
         unfold bit_at; fold j; f_equal; f_equal; lia.
Qed.

Lemma BitStreamPutInt_string_agrees_witness :
  BitStreamPutInt_string 99 [1; 2; 3; 4] 3 21 0x12345
  = BitStreamPutInt [1; 2; 3; 4] 3 21 0x12345.
Proof.
  apply (BitStreamPutInt_string_agrees 99 [1; 2; 3; 4] 3 21 0x12345);
    first [lia | vm_compute; discriminate | unfold is_uint8; lia
          | repeat constructor; unfold is_uint8; lia].
Defined.

End BitStreamString.

(** ** util/hash: further properties *)

Section HashMore.
Import Coding HashFn.

Lemma lxor_range (a b n : Z) :
  0 <= n -> 0 <= a < 2 ^ n -> 0 <= b < 2 ^ n -> 0 <= Z.lxor a b < 2 ^ n.
Proof.
  intros Hn Ha Hb. split; [apply Z.lxor_nonneg; lia|].
  destruct (Z.eq_dec (Z.lxor a b) 0) as [->|Hne]; [apply Z.pow_pos_nonneg; lia|].
  assert (Hpos : 0 < n).
  { destruct (Z.eq_dec n 0) as [->|]; [|lia]. exfalso. apply Hne.
    change (2 ^ 0) with 1 in *. replace a with 0 by lia. replace b with 0 by lia.
    reflexivity. }
  assert (0 <= Z.lxor a b) by (apply Z.lxor_nonneg; lia).
  apply Z.log2_lt_pow2; [lia|].
  apply Z.le_lt_trans with (Z.max (Z.log2 a) (Z.log2 b)); [apply Z.log2_lxor; lia|].
  apply Z.max_lub_lt.
  - destruct (Z.eq_dec a 0) as [->|]; [simpl; lia|]. apply Z.log2_lt_pow2; lia.
  - destruct (Z.eq_dec b 0) as [->|]; [simpl; lia|]. apply Z.log2_lt_pow2; lia.
Qed.

Lemma mix_range (h s : Z) : 0 <= s -> 0 <= h < 2 ^ 32 -> 0 <= Z.lxor h (Z.shiftr h s) < 2 ^ 32.
Proof.
  intros Hs Hh. apply lxor_range; [lia|assumption|].
  rewrite Z.shiftr_div_pow2 by lia.
  assert (0 < 2 ^ s) by (apply Z.pow_pos_nonneg; lia).
  split; [apply Z.div_pos; lia|].
  apply Z.le_lt_trans with h; [|lia]. apply Z.div_le_upper_bound; [lia|]. nia.
Qed.

Lemma uint32_range (x : Z) : 0 <= uint32 x < 2 ^ 32.
Proof. unfold uint32. apply Z.mod_pos_bound. lia. Qed.

Lemma Hash_words_range (fuel : nat) : forall data remaining h,
  0 <= h < 2 ^ 32 -> 0 <= snd (Hash_words fuel data remaining h) < 2 ^ 32.
Proof.
  induction fuel as [|fuel IH]; intros data remaining h Hh; cbn [Hash_words]; [exact Hh|].
  destruct (4 <=? remaining); [|exact Hh].
  apply IH. apply mix_range; [lia|apply uint32_range].
Qed.

(** The hash is a 32-bit value, whatever the bytes, the length and the seed. *)
Theorem Hash_is_uint32 (char_signed : bool) (data : list Z) (n seed : Z) :
  is_uint32 (Hash char_signed data n seed).
Proof.
  unfold is_uint32, Hash. cbv zeta.
  pose proof (Hash_words_range (Z.to_nat n) data n
                (uint32 (Z.lxor seed (uint64 (n * 3332679571))))
                (uint32_range _)) as Hw.
  destruct (Hash_words (Z.to_nat n) data n
              (uint32 (Z.lxor seed (uint64 (n * 3332679571))))) as [[d r] h].
  cbn [snd] in Hw.
  destruct (r =? 3); [apply mix_range; [lia|apply uint32_range]|].
  destruct (r =? 2); [apply mix_range; [lia|apply uint32_range]|].
  destruct (r =? 1); [apply mix_range; [lia|apply uint32_range]|].
  exact Hw.
Qed.

Lemma byte_at_take (d : list Z) (k i : nat) :
  (i < k)%nat -> byte_at (take k d) i = byte_at d i.
Proof. intros H. unfold byte_at. now rewrite lookup_take_lt. Qed.

Lemma byte_at_agree (d1 d2 : list Z) (k i : nat) :
  take k d1 = take k d2 -> (i < k)%nat -> byte_at d1 i = byte_at d2 i.
Proof.
  intros He Hi. rewrite <- (byte_at_take d1 k i Hi), <- (byte_at_take d2 k i Hi).
  now rewrite He.
Qed.

Lemma take_drop_agree (d1 d2 : list Z) (k j : nat) :
  take (j + k) d1 = take (j + k) d2 -> take k (drop j d1) = take k (drop j d2).
Proof.
  intros He. rewrite !take_drop_commute. now rewrite He.
Qed.

Lemma Hash_words_agree (fuel : nat) : forall d1 d2 remaining h,
  0 <= remaining ->
  take (Z.to_nat remaining) d1 = take (Z.to_nat remaining) d2 ->
  exists d1' d2' r h',
    Hash_words fuel d1 remaining h = (d1', r, h')
    /\ Hash_words fuel d2 remaining h = (d2', r, h')
    /\ 0 <= r /\ take (Z.to_nat r) d1' = take (Z.to_nat r) d2'.
Proof.
  induction fuel as [|fuel IH]; intros d1 d2 remaining h Hr He; cbn [Hash_words].
  - exists d1, d2, remaining, h. repeat split; assumption.
  - destruct (Z.leb_spec 4 remaining).
    + assert (Hw : DecodeFixed32 d1 = DecodeFixed32 d2).
      { unfold DecodeFixed32.
        rewrite (byte_at_agree d1 d2 _ 0 He), (byte_at_agree d1 d2 _ 1 He),
                (byte_at_agree d1 d2 _ 2 He), (byte_at_agree d1 d2 _ 3 He) by lia.
        reflexivity. }
      rewrite Hw. apply IH; [lia|].
      apply take_drop_agree. replace (4 + Z.to_nat (remaining - 4))%nat
        with (Z.to_nat remaining) by lia. exact He.
    + exists d1, d2, remaining, h. repeat split; assumption.
Qed.

(** [Hash] looks at the first [n] bytes only: two buffers that agree there
    have the same hash. *)
Theorem Hash_reads_n_bytes (char_signed : bool) (d1 d2 : list Z) (n seed : Z) :
  0 <= n ->
  take (Z.to_nat n) d1 = take (Z.to_nat n) d2 ->
  Hash char_signed d1 n seed = Hash char_signed d2 n seed.
Proof.
  intros Hn He. unfold Hash. cbv zeta.
  destruct (Hash_words_agree (Z.to_nat n) d1 d2 n
              (uint32 (Z.lxor seed (uint64 (n * 3332679571)))) Hn He)
    as (d1' & d2' & r & h' & -> & -> & Hr & Ht).
  destruct (Z.eqb_spec r 3) as [->|_].
  { now rewrite (byte_at_agree d1' d2' _ 0 Ht), (byte_at_agree d1' d2' _ 1 Ht),
                (byte_at_agree d1' d2' _ 2 Ht) by lia. }
  destruct (Z.eqb_spec r 2) as [->|_].
  { now rewrite (byte_at_agree d1' d2' _ 0 Ht), (byte_at_agree d1' d2' _ 1 Ht) by lia. }
  destruct (Z.eqb_spec r 1) as [->|_].
  { now rewrite (byte_at_agree d1' d2' _ 0 Ht) by lia. }
  reflexivity.
Qed.

Lemma Hash_reads_n_bytes_witness :
  Hash true [1; 2; 3; 4; 200; 6; 7] 5 42 = Hash true [1; 2; 3; 4; 200; 9] 5 42.
Proof.
  apply (Hash_reads_n_bytes true [1; 2; 3; 4; 200; 6; 7] [1; 2; 3; 4; 200; 9] 5 42);
    [lia|reflexivity].
Defined.

Lemma Hash_words_tail (fuel : nat) : forall data remaining h,
  0 <= remaining <= 4 * Z.of_nat fuel + 3 ->
  exists h',
    Hash_words fuel data remaining h
    = (drop (Z.to_nat (4 * (remaining / 4))) data, remaining mod 4, h').
Proof.
  induction fuel as [|fuel IH]; intros data remaining h Hr; cbn [Hash_words].
  - exists h.
    replace (remaining / 4) with 0 by dlia. replace (remaining mod 4) with remaining by dlia.
    reflexivity.
  - destruct (Z.leb_spec 4 remaining).
    + destruct (IH (drop 4 data) (remaining - 4)
                  (Z.lxor (uint32 (uint32 (h + DecodeFixed32 data) * 3332679571))
                     (Z.shiftr (uint32 (uint32 (h + DecodeFixed32 data) * 3332679571)) 16)))
        as (h' & ->); [lia|].
      exists h'. rewrite drop_drop.
      replace (4 + Z.to_nat (4 * ((remaining - 4) / 4)))%nat
        with (Z.to_nat (4 * (remaining / 4))) by dlia.
      replace ((remaining - 4) mod 4) with (remaining mod 4) by dlia. reflexivity.
    + exists h.
      replace (remaining / 4) with 0 by dlia. replace (remaining mod 4) with remaining by dlia.
      reflexivity.
Qed.

(** The signedness of [char] matters for the trailing one to three bytes only:
    when those are below 128, or the length is a multiple of four, the hash is
    the same on targets with signed and with unsigned [char]. *)
Theorem Hash_char_signedness (data : list Z) (n seed : Z) :
  0 <= n ->
  (forall i, 4 * (n / 4) <= i < n -> byte_at data (Z.to_nat i) < 128) ->
  Hash true data n seed = Hash false data n seed.
Proof.
  intros Hn Htail. unfold Hash. cbv zeta.
  destruct (Hash_words_tail (Z.to_nat n) data n
              (uint32 (Z.lxor seed (uint64 (n * 3332679571)))) ltac:(lia))
    as (h' & ->).
  assert (Hb : forall j : nat, Z.of_nat j < n mod 4 ->
            char_to_int true (byte_at (drop (Z.to_nat (4 * (n / 4))) data) j)
            = char_to_int false (byte_at (drop (Z.to_nat (4 * (n / 4))) data) j)).
  { intros j Hj. unfold char_to_int. cbn [andb].
    assert (Hlt : byte_at (drop (Z.to_nat (4 * (n / 4))) data) j < 128).
    { unfold byte_at. rewrite lookup_drop.
      specialize (Htail (4 * (n / 4) + Z.of_nat j) ltac:(dlia)). unfold byte_at in Htail.
      replace (Z.to_nat (4 * (n / 4)) + j)%nat
        with (Z.to_nat (4 * (n / 4) + Z.of_nat j)) by dlia. exact Htail. }
    destruct (Z.leb_spec 128 (byte_at (drop (Z.to_nat (4 * (n / 4))) data) j));
      [lia|reflexivity]. }
  destruct (Z.eqb_spec (n mod 4) 3) as [E|_].
  { rewrite (Hb 0%nat), (Hb 1%nat), (Hb 2%nat) by lia. reflexivity. }
  destruct (Z.eqb_spec (n mod 4) 2) as [E|_].
  { rewrite (Hb 0%nat), (Hb 1%nat) by lia. reflexivity. }
  destruct (Z.eqb_spec (n mod 4) 1) as [E|_].
  { rewrite (Hb 0%nat) by lia. reflexivity. }
  reflexivity.
Qed.

Lemma Hash_char_signedness_witness :
  Hash true [200; 201; 202; 203; 5; 6] 6 42 = Hash false [200; 201; 202; 203; 5; 6] 6 42.
Proof.
  apply (Hash_char_signedness [200; 201; 202; 203; 5; 6] 6 42); [lia|].
  intros i Hi. change (4 * (6 / 4)) with 4 in Hi.
  assert (i = 4 \/ i = 5) as [-> | ->] by lia; vm_compute; reflexivity.
Defined.

End HashMore.

(** ** util/arena: further properties *)

Section ArenaMore.
Import ArenaModel.

Variable operator_new : nat -> Z -> Z.
Variable vector_grow : Z -> Z.

Abbreviation AllocateAligned' := (AllocateAligned operator_new vector_grow).
Abbreviation serve' := (serve operator_new vector_grow).
Abbreviation serve_all' := (serve_all operator_new vector_grow).

(** The [assert] at the end of [AllocateAligned] holds: when [new char[]]
    returns addresses that are multiples of 8, so does [AllocateAligned]; and
    when it allocates no block, what it returns lies less than 8 bytes behind
    the bump pointer. *)
Theorem AllocateAligned_is_aligned (bytes : Z) (a : Arena) :
  (forall k n, Z.land (operator_new k n) (8 - 1) = 0) ->
  Z.land (fst (AllocateAligned' bytes a)) (8 - 1) = 0
  /\ (blocks_ (snd (AllocateAligned' bytes a)) = blocks_ a ->
        alloc_ptr_ a <= fst (AllocateAligned' bytes a) < alloc_ptr_ a + 8).
Proof.
  intros Hnew.
  unfold ArenaModel.AllocateAligned. cbv zeta.
  pose proof (slop_range (alloc_ptr_ a)) as Hm.
  set (m := Z.land (alloc_ptr_ a) (8 - 1)) in *.
  assert (Hal : Z.land (alloc_ptr_ a + (if m =? 0 then 0 else 8 - m)) (8 - 1) = 0).
  { subst m. change (8 - 1) with (Z.ones 3) in *. rewrite !Z.land_ones in * by lia.
    destruct (Z.eqb_spec (alloc_ptr_ a mod 2 ^ 3) 0); change (2 ^ 3) with 8 in *; dlia. }
  assert (Hslop : 0 <= (if m =? 0 then 0 else 8 - m) <= 7)
    by (destruct (Z.eqb_spec m 0); lia).
  destruct (_ <=? _); cbn [fst snd blocks_].
  - split; [exact Hal|]. intros _. lia.
  - unfold AllocateFallback, AllocateNewBlock.
    destruct (bytes >? kBlockSize / 4); cbn [fst snd blocks_]; (split; [apply Hnew|]);
      intros Hb; apply (f_equal length) in Hb; rewrite length_app in Hb; cbn in Hb; lia.
Qed.

Lemma example_new_aligned (k : nat) (n : Z) : Z.land (example_new k n) (8 - 1) = 0.
Proof.
  unfold example_new. change (8 - 1) with (Z.ones 3). rewrite Z.land_ones by lia.
  change (2 ^ 3) with 8. dlia.
Qed.

Lemma serve_blocks (r : request) (a : Arena) :
  blocks_ (serve' r a) = blocks_ a
  \/ exists p, blocks_ (serve' r a) = blocks_ a ++ [p].
Proof.
  destruct r as [bytes|bytes];
    unfold ArenaModel.serve, Allocate, ArenaModel.AllocateAligned, AllocateFallback,
           AllocateNewBlock; cbv zeta;
    destruct (_ <=? _); cbn [snd blocks_]; try (left; reflexivity);
    destruct (bytes >? kBlockSize / 4); cbn [snd blocks_]; right; eexists; reflexivity.
Qed.

(** Blocks are never given back or moved: after any sequence of requests the
    arena still holds the blocks it held before, in their places, and it has
    taken one new block per request at most. *)
Theorem Arena_blocks_only_grow (reqs : list request) (a : Arena) :
  blocks_ a `prefix_of` blocks_ (serve_all' reqs a)
  /\ (length (blocks_ (serve_all' reqs a)) <= length (blocks_ a) + length reqs)%nat.
Proof.
  revert a. induction reqs as [|r reqs IH]; intros a; cbn [ArenaModel.serve_all fold_left].
  - split; [reflexivity|lia].
  - destruct (IH (serve' r a)) as [Hp Hl]. fold (serve_all' reqs (serve' r a)) in *.
    destruct (serve_blocks r a) as [E|[p E]]; rewrite E in *.
    + split; [exact Hp|cbn [length]; lia].
    + split.
      * transitivity (blocks_ a ++ [p]); [apply prefix_app_r; reflexivity|exact Hp].
      * rewrite length_app in Hl. cbn [length] in *. lia.
Qed.

Lemma serve_remaining (r : request) (a : Arena) :
  0 <= request_bytes r ->
  0 <= alloc_bytes_remaining_ a <= kBlockSize ->
  0 <= alloc_bytes_remaining_ (serve' r a) <= kBlockSize.
Proof.
  intros Hb Hr. unfold kBlockSize in *.
  destruct r as [bytes|bytes]; cbn [request_bytes] in Hb;
    unfold ArenaModel.serve, Allocate, ArenaModel.AllocateAligned, AllocateFallback,
           AllocateNewBlock; cbv zeta.
  - destruct (Z.leb_spec bytes (alloc_bytes_remaining_ a)); cbn [snd alloc_bytes_remaining_].
    + unfold uint64. rewrite Z.mod_small by lia. lia.
    + change (kBlockSize / 4) with 1024.
      destruct (Z.gtb_spec bytes 1024); cbn [snd alloc_bytes_remaining_]; [lia|].
      unfold uint64, kBlockSize. rewrite Z.mod_small by lia. lia.
  - set (needed := uint64 _).
    assert (0 <= needed) by (subst needed; unfold uint64; apply Z.mod_pos_bound; lia).
    destruct (Z.leb_spec needed (alloc_bytes_remaining_ a)); cbn [snd alloc_bytes_remaining_].
    + unfold uint64. rewrite Z.mod_small by lia. lia.
    + change (kBlockSize / 4) with 1024.
      destruct (Z.gtb_spec bytes 1024); cbn [snd alloc_bytes_remaining_]; [lia|].
      unfold uint64, kBlockSize. rewrite Z.mod_small by lia. lia.
Qed.

(** What is left of the current block never exceeds one block: from a new
    arena, after any sequence of requests, [alloc_bytes_remaining_] lies
    between 0 and 4096. *)
Theorem Arena_remainder_bounded (reqs : list request) :
  Forall (fun r => 0 <= request_bytes r) reqs ->
  0 <= alloc_bytes_remaining_ (serve_all' reqs Arena_new) <= kBlockSize.
Proof.
  intros Hreqs.
  assert (Hgen : forall a, 0 <= alloc_bytes_remaining_ a <= kBlockSize ->
            0 <= alloc_bytes_remaining_ (serve_all' reqs a) <= kBlockSize).
  { induction Hreqs as [|r reqs Hr _ IH]; intros a Ha; cbn [ArenaModel.serve_all fold_left];
      [exact Ha|].
    apply IH. now apply serve_remaining. }
  apply Hgen. cbn. unfold kBlockSize. lia.
Qed.

End ArenaMore.

Lemma AllocateAligned_is_aligned_witness :
  let a := ArenaModel.mkArena 65637 3995 [65536] 1 4096 in
  let AllocateAligned := ArenaModel.AllocateAligned ArenaModel.example_new ArenaModel.example_grow in
  Z.land (fst (AllocateAligned 100 a)) (8 - 1) = 0
  /\ (ArenaModel.blocks_ (snd (AllocateAligned 100 a)) = ArenaModel.blocks_ a ->
        ArenaModel.alloc_ptr_ a <= fst (AllocateAligned 100 a) < ArenaModel.alloc_ptr_ a + 8).
Proof.
  cbv zeta.
  apply (AllocateAligned_is_aligned ArenaModel.example_new ArenaModel.example_grow 100
           (ArenaModel.mkArena 65637 3995 [65536] 1 4096)).
  intros k n. unfold ArenaModel.example_new.
  change (8 - 1) with (Z.ones 3). rewrite Z.land_ones by lia. change (2 ^ 3) with 8. dlia.
Defined.

Lemma Arena_remainder_bounded_witness :
  0 <= ArenaModel.alloc_bytes_remaining_
         (ArenaModel.serve_all ArenaModel.example_new ArenaModel.example_grow
            [ArenaModel.ReqAllocate 100; ArenaModel.ReqAllocateAligned 5000;
             ArenaModel.ReqAllocate 4000] ArenaModel.Arena_new)
  <= ArenaModel.kBlockSize.
Proof.
  apply (Arena_remainder_bounded ArenaModel.example_new ArenaModel.example_grow
           [ArenaModel.ReqAllocate 100; ArenaModel.ReqAllocateAligned 5000;
            ArenaModel.ReqAllocate 4000]).
  repeat constructor; cbn; lia.
Defined.

(** ** db/skiplist: further properties *)

Ltac csplit := repeat match goal with |- _ /\ _ => split end.

Section SkipListMore.
Import SkipListModel.

Context {Key : Type} (compare_ : Key -> Key -> Z) (key0 : Key).
Context {Random : Type} (Random_Next : Random -> Z * Random).
Variable atomic_value_init : bool.

Abbreviation SL := (@SkipList Key Random).
Abbreviation Insert' := (Insert compare_ Random_Next atomic_value_init).
Abbreviation Insert_all' := (Insert_all compare_ Random_Next atomic_value_init).
Abbreviation Insert_at' := (Insert_at (Random:=Random) atomic_value_init).
Abbreviation FindGreatOrEqual' := (FindGreatOrEqual (Random:=Random) compare_).
Abbreviation FindGreatOrEqual_loop' := (FindGreatOrEqual_loop (Random:=Random) compare_).
Abbreviation Contains' := (Contains (Random:=Random) compare_).
Abbreviation SkipList_new' := (SkipList_new (Random:=Random) key0).

(** The assertions of [RandomHeight] hold for every generator. *)
Theorem RandomHeight_within_bounds (rnd : Random) :
  0 < fst (RandomHeight Random_Next rnd) <= kMaxHeight.
Proof. pose proof (RandomHeight_range Random_Next rnd). lia. Qed.

Lemma Next_valid (s : SL) (x : nat) (lvl : Z) (n : nat) :
  well_formed s -> Next s x lvl = Ok (Some n) -> (1 <= n < length (nodes s))%nat.
Proof.
  intros (Hptr & _) H. unfold Next in H.
  destruct (nodes s !! x) as [nd|] eqn:Ex; [|discriminate].
  destruct (next_ nd !! Z.to_nat lvl) as [[|p]|] eqn:Ei; try discriminate.
  injection H as ->. exact (Hptr x nd _ n Ex Ei).
Qed.

Lemma Next_same_core (s0 s : SL) (x : nat) (lvl : Z) :
  same_core s0 s -> Next s x lvl = Next s0 x lvl.
Proof. intros (Hn & _). unfold Next. now rewrite Hn. Qed.

Lemma KeyIsAfterNode_same_core (s0 s : SL) (k : Key) (n : option nat) :
  same_core s0 s -> KeyIsAfterNode compare_ s k n = KeyIsAfterNode compare_ s0 k n.
Proof. intros (Hn & _). unfold KeyIsAfterNode. now rewrite Hn. Qed.

Lemma FindGreatOrEqual_loop_spec (s0 : SL) (k : Key) (prev : bool) (fuel : nat) :
  well_formed s0 ->
  forall s x level r s',
    same_core s0 s -> (x < length (nodes s0))%nat ->
    FindGreatOrEqual_loop' fuel s k prev x level = Ok (r, s') ->
    same_core s0 s'
    /\ (prev = false -> s' = s)
    /\ match r with
       | None => True
       | Some n =>
           (1 <= n < length (nodes s0))%nat
           /\ exists nd, nodes s0 !! n = Some nd /\ 0 <= compare_ (key nd) k
       end.
Proof.
  intros Hwf. induction fuel as [|fuel IH]; intros s x level r s' Hcore Hx H;
    cbn [SkipListModel.FindGreatOrEqual_loop] in H; [discriminate|].
  rewrite (Next_same_core s0 s) in H by assumption.
  destruct (Next s0 x level) as [next| |] eqn:En; cbn [bind] in H; try discriminate.
  rewrite (KeyIsAfterNode_same_core s0 s) in H by assumption.
  destruct (KeyIsAfterNode compare_ s0 k next) as [after| |] eqn:Ea; cbn [bind] in H;
    try discriminate.
  destruct after.
  - destruct next as [n|]; [|cbn in Ea; discriminate].
    apply IH in H; [exact H|assumption|].
    simpl. pose proof (Next_valid s0 x level n Hwf En). lia.
  - assert (Hcore' : same_core s0
              (if prev then with_prev s (<[Z.to_nat level := x]> (prev_ s)) else s)).
    { destruct prev; [|assumption].
      destruct Hcore as (H1 & H2 & H3 & H4 & H5).
      unfold same_core, with_prev; cbn. csplit; try assumption.
      - now rewrite length_insert.
      - apply Forall_insert; assumption. }
    destruct (level =? 0).
    + injection H as <- <-. split; [exact Hcore'|]. split.
      * intros ->. reflexivity.
      * destruct next as [n|]; [|exact I].
        split; [exact (Next_valid s0 x level n Hwf En)|].
        unfold KeyIsAfterNode in Ea.
        destruct (nodes s0 !! n) as [nd|]; [|discriminate].
        injection Ea as Ea. exists nd. split; [reflexivity|].
        destruct (Z.ltb_spec (compare_ (key nd) k) 0); [discriminate|lia].
    + apply IH in H; [|exact Hcore'|assumption].
      destruct H as (Hc & Hp & Hr). split; [exact Hc|]. split; [|exact Hr].
      intros ->. now apply Hp.
Qed.

Lemma same_core_refl (s : SL) : well_formed s -> same_core s s.
Proof. intros (_ & Hprev & _). unfold same_core. csplit; try reflexivity. assumption. Qed.

Lemma FindGreatOrEqual_spec (s : SL) (k : Key) (prev : bool) (r : option nat) (s' : SL) :
  well_formed s ->
  FindGreatOrEqual' s k prev = Ok (r, s') ->
  same_core s s'
  /\ (prev = false -> s' = s)
  /\ match r with
     | None => True
     | Some n =>
         (1 <= n < length (nodes s))%nat
         /\ exists nd, nodes s !! n = Some nd /\ 0 <= compare_ (key nd) k
     end.
Proof.
  intros Hwf H. unfold SkipListModel.FindGreatOrEqual in H.
  assert (Hloop : forall r s',
            FindGreatOrEqual_loop' (search_fuel s) s k prev head_ (GetMaxHeight s - 1)
            = Ok (r, s') ->
            same_core s s' /\ (prev = false -> s' = s)
            /\ match r with
               | None => True
               | Some n =>
                   (1 <= n < length (nodes s))%nat
                   /\ exists nd, nodes s !! n = Some nd /\ 0 <= compare_ (key nd) k
               end).
  { intros r0 s0 H0.
    apply (FindGreatOrEqual_loop_spec s k prev (search_fuel s) Hwf s head_
             (GetMaxHeight s - 1) r0 s0); try assumption.
    - now apply same_core_refl.
    - destruct Hwf as (_ & _ & _ & _ & Hlen). exact Hlen. }
  destruct prev; [|cbn [bind] in H; now apply Hloop].
  destruct (Next s (prev_at s 0) 0) as [n0| |] eqn:En0; cbn [bind] in H; try discriminate.
  destruct (KeyIsAfterNode compare_ s k n0) as [after| |] eqn:Ea; cbn [bind] in H;
    try discriminate.
  destruct after; cbn [negb bind] in H; [now apply Hloop|].
  assert (Hret : same_core s s /\ (true = false -> s = s)
                 /\ match n0 with
                    | None => True
                    | Some n =>
                        (1 <= n < length (nodes s))%nat
                        /\ exists nd, nodes s !! n = Some nd /\ 0 <= compare_ (key nd) k
                    end).
  { split; [now apply same_core_refl|]. split; [reflexivity|].
    destruct n0 as [n|]; [|exact I].
    split; [exact (Next_valid s _ _ n Hwf En0)|].
    unfold KeyIsAfterNode in Ea. destruct (nodes s !! n) as [nd|]; [|discriminate].
    injection Ea as Ea. exists nd. split; [reflexivity|].
    destruct (Z.ltb_spec (compare_ (key nd) k) 0); [discriminate|lia]. }
  destruct (prev_at s 0 =? head_)%nat.
  - cbn [bind] in H. injection H as <- <-. exact Hret.
  - destruct (KeyIsAfterNode compare_ s k (Some (prev_at s 0))) as [ax| |];
      cbn [bind] in H; try discriminate.
    destruct ax; cbn [bind] in H; [injection H as <- <-; exact Hret|now apply Hloop].
Qed.

Lemma well_formed_same_core (s s' : SL) :
  well_formed s -> same_core s s' -> well_formed s'.
Proof.
  intros (Hp & Hprev & Hlen & Hmax & Hpos) (Hn & Hm & Hr & Hl & Hv).
  unfold well_formed. rewrite Hn, Hm, Hl. csplit; try assumption; lia.
Qed.

Lemma raise_prev_valid (s : SL) (height : Z) :
  (0 < length (nodes s))%nat ->
  Forall (fun x => (x < length (nodes s))%nat) (prev_ s) ->
  length (raise_prev s height) = length (prev_ s)
  /\ Forall (fun x => (x < length (nodes s))%nat) (raise_prev s height).
Proof.
  intros Hpos. unfold raise_prev.
  generalize (seq (Z.to_nat (GetMaxHeight s)) (Z.to_nat (height - GetMaxHeight s))).
  intros idxs. generalize (prev_ s). induction idxs as [|i idxs IH]; intros p Hp;
    cbn [fold_left]; [split; [reflexivity|assumption]|].
  destruct (IH (<[i := head_]> p)) as [Hl Hv].
  - apply Forall_insert; [assumption|exact Hpos].
  - split; [now rewrite Hl, length_insert|exact Hv].
Qed.

Lemma SetNext_spec (s s' : SL) (p : nat) (n : Z) (x : nat) :
  pointers_valid (nodes s) -> (1 <= x < length (nodes s))%nat ->
  SetNext s p n (Some x) = Ok s' ->
  pointers_valid (nodes s')
  /\ key <$> nodes s' = key <$> nodes s
  /\ prev_ s' = prev_ s /\ max_height_ s' = max_height_ s /\ rnd_ s' = rnd_ s.
Proof.
  intros Hptr Hx H. unfold SetNext in H.
  destruct (nodes s !! p) as [nd|] eqn:Ep; [|discriminate].
  destruct (Z.to_nat n <? length (next_ nd))%nat; [|discriminate].
  injection H as <-. cbn [nodes with_nodes prev_ max_height_ rnd_].
  split; [|split; [|csplit; reflexivity]].
  - intros x' nd' i' p' Hx' Hi'. rewrite length_insert.
    destruct (Nat.eq_dec p x') as [<-|Hne].
    + rewrite list_lookup_insert_eq in Hx' by (now apply lookup_lt_Some in Ep).
      injection Hx' as <-. cbn [next_] in Hi'.
      destruct (Nat.eq_dec (Z.to_nat n) i') as [<-|Hni].
      * rewrite list_lookup_insert_eq in Hi'
          by (apply lookup_lt_Some in Hi'; now rewrite length_insert in Hi').
        injection Hi' as <-. exact Hx.
      * rewrite list_lookup_insert_ne in Hi' by assumption. exact (Hptr p nd i' p' Ep Hi').
    + rewrite list_lookup_insert_ne in Hx' by assumption. exact (Hptr x' nd' i' p' Hx' Hi').
  - rewrite list_fmap_insert. cbn [key]. apply list_insert_id.
    rewrite list_lookup_fmap, Ep. reflexivity.
Qed.

Lemma Insert_link_spec (levels : list nat) : forall (s s' : SL) (x : nat),
  pointers_valid (nodes s) -> (1 <= x < length (nodes s))%nat ->
  Insert_link levels s x = Ok s' ->
  pointers_valid (nodes s')
  /\ key <$> nodes s' = key <$> nodes s
  /\ prev_ s' = prev_ s /\ max_height_ s' = max_height_ s /\ rnd_ s' = rnd_ s.
Proof.
  induction levels as [|i levels IH]; intros s s' x Hptr Hx H; cbn [Insert_link] in H.
  - injection H as <-. csplit; try reflexivity. exact Hptr.
  - destruct (NoBarrier_Next s (prev_at s i) (Z.of_nat i)) as [p| |];
      cbn [bind] in H; try discriminate.
    destruct (NoBarrier_Next_dropped s x p) as [dropped| |];
      cbn [bind] in H; try discriminate.
    destruct (SetNext s (prev_at s i) (Z.of_nat i) (Some x)) as [s1| |] eqn:E1;
      cbn [bind] in H; try discriminate.
    destruct (SetNext_spec s s1 _ _ x Hptr Hx E1) as (Hp1 & Hk1 & Hv1 & Hm1 & Hr1).
    assert (Hlen1 : length (nodes s1) = length (nodes s)).
    { apply (f_equal length) in Hk1. now rewrite !length_fmap in Hk1. }
    destruct (IH s1 s' x Hp1 ltac:(lia) H) as (Hp & Hk & Hv & Hm & Hr).
    csplit; try congruence. exact Hp.
Qed.

Lemma Insert_at_spec (s s' : SL) (k : Key) (height : Z) (rnd : Random) :
  well_formed s -> 1 <= height <= kMaxHeight ->
  Insert_at' s k height rnd = Ok s' ->
  well_formed s'
  /\ key <$> nodes s' = (key <$> nodes s) ++ [k]
  /\ max_height_ s <= max_height_ s'.
Proof.
  intros (Hptr & Hprev & Hlen & Hmax & Hpos) Hh H.
  unfold SkipListModel.Insert_at in H. cbv zeta in H.
  set (s1 := mkSkipList (nodes s) (max_height_ s) (prev_ s) rnd) in *.
  set (s2 := if height >? GetMaxHeight s1
             then mkSkipList (nodes s1) height (raise_prev s1 height) (rnd_ s1) else s1) in *.
  assert (Hs2 : nodes s2 = nodes s
                /\ length (prev_ s2) = Z.to_nat kMaxHeight
                /\ Forall (fun x => (x < length (nodes s))%nat) (prev_ s2)
                /\ max_height_ s <= max_height_ s2 <= kMaxHeight).
  { subst s2. unfold GetMaxHeight. cbn [max_height_ s1].
    destruct (Z.gtb_spec height (max_height_ s)); cbn [nodes prev_ max_height_ s1].
    - destruct (raise_prev_valid s1 height Hpos Hprev) as [Hl Hv].
      split; [reflexivity|]. split; [rewrite Hl; exact Hlen|]. split; [exact Hv|lia].
    - split; [reflexivity|]. split; [exact Hlen|]. split; [exact Hprev|lia]. }
  destruct Hs2 as (Hn2 & Hl2 & Hv2 & Hm2).
  unfold NewNode in H. cbn [fst snd] in H.
  set (x := length (nodes s2)) in *.
  remember (with_nodes s2 (nodes s2 ++ [mkNode k (default_rep atomic_value_init
              :: replicate (Z.to_nat (height - 1)) Indeterminate)])) as s3 eqn:Es3.
  assert (Hnodes3 : nodes s3 = nodes s ++ [mkNode k (default_rep atomic_value_init
              :: replicate (Z.to_nat (height - 1)) Indeterminate)])
    by (rewrite Es3; cbn [nodes with_nodes]; now rewrite Hn2).
  assert (Hprev3 : prev_ s3 = prev_ s2) by (now rewrite Es3).
  assert (Hmax3 : max_height_ s3 = max_height_ s2) by (now rewrite Es3).
  clear Es3.
  assert (Hn3 : length (nodes s3) = S (length (nodes s))).
  { rewrite Hnodes3, length_app. cbn [length]. lia. }
  assert (Hx : (1 <= x < length (nodes s3))%nat) by (subst x; rewrite Hn2; lia).
  assert (Hptr3 : pointers_valid (nodes s3)).
  { rewrite Hnodes3.
    intros x' nd' i' p' Hx' Hi'. rewrite length_app. cbn [length].
    apply lookup_app_Some in Hx'. destruct Hx' as [Hold|[Hge Hnew]].
    - pose proof (Hptr x' nd' i' p' Hold Hi'). lia.
    - exfalso. destruct (x' - length (nodes s))%nat; [|discriminate].
      injection Hnew as <-. cbn [next_] in Hi'.
      destruct i' as [|i'].
      + cbn in Hi'. unfold default_rep in Hi'. destruct atomic_value_init; discriminate.
      + cbn in Hi'. apply lookup_replicate in Hi'. destruct Hi'. discriminate. }
  destruct (Insert_link (seq 0 (Z.to_nat height)) s3 x) as [s4| |] eqn:E4;
    cbn [bind] in H; try discriminate.
  injection H as <-.
  destruct (Insert_link_spec _ s3 s4 x Hptr3 Hx E4) as (Hp4 & Hk4 & Hv4 & Hm4 & Hr4).
  assert (Hlen4 : length (nodes s4) = length (nodes s3)).
  { apply (f_equal length) in Hk4. now rewrite !length_fmap in Hk4. }
  split; [|split].
  - unfold well_formed. cbn [nodes prev_ max_height_ with_prev].
    rewrite length_insert, Hv4, Hm4, Hlen4, Hn3, Hprev3, Hmax3.
    split; [exact Hp4|]. split; [|split; [exact Hl2|split; lia]].
    apply Forall_insert.
    + rewrite Forall_forall in Hv2 |- *. intros y Hy. specialize (Hv2 y Hy). lia.
    + subst x. rewrite Hn2. lia.
  - cbn [nodes with_prev]. rewrite Hk4, Hnodes3, fmap_app. reflexivity.
  - cbn [max_height_ with_prev]. rewrite Hm4, Hmax3. lia.
Qed.

Lemma Insert_spec (s s' : SL) (k : Key) :
  well_formed s -> Insert' s k = Ok s' ->
  well_formed s'
  /\ key <$> nodes s' = (key <$> nodes s) ++ [k]
  /\ max_height_ s <= max_height_ s'.
Proof.
  intros Hwf H. unfold SkipListModel.Insert in H.
  destruct (FindGreatOrEqual' s k true) as [[r s1]| |] eqn:Ef; cbn [bind] in H;
    try discriminate.
  destruct (FindGreatOrEqual_spec s k true r s1 Hwf Ef) as (Hcore & _ & _).
  pose proof (well_formed_same_core s s1 Hwf Hcore) as Hwf1.
  destruct (RandomHeight Random_Next (rnd_ s1)) as [h rnd] eqn:Eh.
  pose proof (RandomHeight_range Random_Next (rnd_ s1)) as Hr. rewrite Eh in Hr.
  destruct (Insert_at_spec s1 s' k h rnd Hwf1 Hr H) as (Hw & Hk & Hm).
  destruct Hcore as (Hn & Hmax & _). rewrite Hn, Hmax in *. csplit; assumption.
Qed.

Lemma SkipList_new_well_formed (rnd0 : Random) : well_formed (SkipList_new' rnd0).
Proof.
  unfold well_formed, SkipList_new. cbn [nodes prev_ max_height_].
  split; [|split; [|split; [|split]]].
  - intros x nd i p Hx Hi. destruct x; [|discriminate]. injection Hx as <-.
    cbn [next_] in Hi. do 12 (destruct i as [|i]; [discriminate|]). discriminate.
  - apply Forall_replicate. unfold head_. cbn. lia.
  - apply length_replicate.
  - unfold kMaxHeight. lia.
  - cbn. lia.
Qed.

Lemma Insert_all_spec (ks : list Key) : forall s s',
  well_formed s -> Insert_all' s ks = Ok s' ->
  well_formed s'
  /\ key <$> nodes s' = (key <$> nodes s) ++ ks
  /\ max_height_ s <= max_height_ s'.
Proof.
  induction ks as [|k ks IH]; intros s s' Hwf H; cbn [SkipListModel.Insert_all] in H.
  - injection H as <-. rewrite app_nil_r. csplit; [assumption|reflexivity|lia].
  - destruct (Insert' s k) as [s1| |] eqn:E1; cbn [bind] in H; try discriminate.
    destruct (Insert_spec s s1 k Hwf E1) as (Hw1 & Hk1 & Hm1).
    destruct (IH s1 s' Hw1 H) as (Hw & Hk & Hm).
    split; [exact Hw|]. split; [|lia].
    rewrite Hk, Hk1, <- app_assoc. reflexivity.
Qed.

(** What [Insert] keeps, as the header of skiplist.h says: nodes are never
    deleted and their keys never change.  After a sequence of [Insert] calls
    on a new list that return, the nodes are the head and one node per call,
    in the order of the calls and with the keys of the calls; [max_height_]
    is between 1 and [kMaxHeight]; and every pointer that is set leads to a
    node of the list. *)
Theorem Insert_keeps_nodes (rnd0 : Random) (ks : list Key) (s : SL) :
  Insert_all' (SkipList_new' rnd0) ks = Ok s ->
  key <$> nodes s = key0 :: ks
  /\ 1 <= max_height_ s <= kMaxHeight
  /\ pointers_valid (nodes s).
Proof.
  intros H.
  destruct (Insert_all_spec ks _ s (SkipList_new_well_formed rnd0) H) as (Hw & Hk & _).
  split; [exact Hk|]. destruct Hw as (Hp & _ & _ & Hm & _). split; assumption.
Qed.

(** A search does not write to the list: [FindGreatOrEqual] changes nothing
    when it is given no [prev], and [prev_] only when given it; what it
    returns is null or a node of the list, other than the head, whose key is
    not before the key searched. *)
Theorem FindGreatOrEqual_result (s s' : SL) (k : Key) (prev : bool) (r : option nat) :
  well_formed s ->
  FindGreatOrEqual' s k prev = Ok (r, s') ->
  nodes s' = nodes s /\ max_height_ s' = max_height_ s /\ rnd_ s' = rnd_ s
  /\ (prev = false -> s' = s)
  /\ match r with
     | None => True
     | Some n =>
         (1 <= n)%nat
         /\ exists nd, nodes s !! n = Some nd /\ 0 <= compare_ (key nd) k
     end.
Proof.
  intros Hwf H.
  destruct (FindGreatOrEqual_spec s k prev r s' Hwf H) as ((Hn & Hm & Hr & _) & Hp & Hres).
  csplit; try assumption.
  destruct r as [n|]; [|exact I]. destruct Hres as [Hn1 Hnd]. split; [lia|exact Hnd].
Qed.

(** [Contains] reports no key that was not inserted: after a sequence of
    [Insert] calls on a new list, [Contains(k)] returns [true] only if one of
    the inserted keys compares equal to [k]. *)
Theorem Contains_only_inserted (rnd0 : Random) (ks : list Key) (s : SL) (k : Key) :
  Insert_all compare_ Random_Next atomic_value_init (SkipList_new key0 rnd0) ks = Ok s ->
  Contains compare_ s k = Ok true ->
  exists k', In k' ks /\ compare_ k k' = 0.
Proof.
  intros Hins Hc.
  destruct (Insert_all_spec ks _ s (SkipList_new_well_formed rnd0) Hins) as (Hw & Hk & _).
  unfold SkipListModel.Contains in Hc.
  destruct (FindGreatOrEqual' s k false) as [[r s1]| |] eqn:Ef; cbn [bind] in Hc;
    try discriminate.
  destruct (FindGreatOrEqual_spec s k false r s1 Hw Ef) as (_ & _ & Hres).
  destruct r as [n|]; [|discriminate].
  destruct Hres as [Hn (nd & End & _)]. rewrite End in Hc. injection Hc as Heq.
  exists (key nd). split.
  - assert (Hin : (key <$> nodes s) !! n = Some (key nd))
      by (rewrite list_lookup_fmap, End; reflexivity).
    rewrite Hk in Hin. cbn [SkipList_new nodes fmap list_fmap] in Hin.
    destruct n as [|n]; [lia|]. cbn in Hin.
    apply list_elem_of_lookup_2 in Hin. now apply list_elem_of_In.
  - unfold Equal in Heq. now apply Z.eqb_eq.
Qed.

(** On a new list every search comes back empty: [Contains] returns [false]
    for every key, and [FindLessThan] and [FindLast] return the head. *)
Theorem empty_list_searches (rnd0 : Random) (k : Key) :
  Contains' (SkipList_new' rnd0) k = Ok false
  /\ FindLessThan compare_ (SkipList_new' rnd0) k = Ok head_
  /\ FindLast (SkipList_new' rnd0) = Ok head_.
Proof. csplit; reflexivity. Qed.

(** The first key inserted is found: after [Insert(k)] on a new list,
    [Contains(k)] returns [true], for every generator, when the comparator
    finds [k] equal to itself. *)
Theorem first_insert_found (rnd0 : Random) (k : Key) :
  compare_ k k = 0 ->
  bind (Insert' (SkipList_new' rnd0) k) (fun s => Contains' s k) = Ok true.
Proof.
  intros Hkk.
  destruct (RandomHeight Random_Next rnd0) as [h rnd] eqn:Hh.
  pose proof (RandomHeight_range Random_Next rnd0) as Hr. rewrite Hh in Hr. cbn [fst] in Hr.
  rewrite (Insert_steps compare_ Random_Next atomic_value_init
             (SkipList_new' rnd0) (SkipList_new' rnd0) k None h rnd eq_refl Hh).
  destruct (height_cases h Hr) as [->|[->|[->|[->|[->|[->|[->|[->|[->|[->|[->| ->]]]]]]]]]]];
    repeat (progress (cbv; rewrite ?Hkk)); reflexivity.
Qed.

End SkipListMore.

Lemma Insert_keeps_nodes_witness :
  match SkipListModel.Insert_all SkipListModel.compare_Z SkipListModel.replay_Next true
          (SkipListModel.SkipList_new 0 [4; 1; 4]) [3; 5] with
  | SkipListModel.Ok s =>
      SkipListModel.key <$> SkipListModel.nodes s = 0 :: [3; 5]
      /\ 1 <= SkipListModel.max_height_ s <= SkipListModel.kMaxHeight
      /\ SkipListModel.pointers_valid (SkipListModel.nodes s)
  | _ => False
  end.
Proof.
  destruct (SkipListModel.Insert_all SkipListModel.compare_Z SkipListModel.replay_Next true
              (SkipListModel.SkipList_new 0 [4; 1; 4]) [3; 5]) as [s| |] eqn:E;
    [|vm_compute in E; discriminate..].
  apply (Insert_keeps_nodes SkipListModel.compare_Z 0 SkipListModel.replay_Next true
           [4; 1; 4] [3; 5] s E).
Defined.

Lemma FindGreatOrEqual_result_witness :
  match SkipListModel.Insert_all SkipListModel.compare_Z SkipListModel.replay_Next true
          (SkipListModel.SkipList_new 0 [4; 4]) [3; 5] with
  | SkipListModel.Ok s =>
      match SkipListModel.FindGreatOrEqual SkipListModel.compare_Z s 4 false with
      | SkipListModel.Ok (r, s') =>
          r = Some 2%nat /\ s' = s
          /\ exists nd, SkipListModel.nodes s !! 2%nat = Some nd
                        /\ 0 <= SkipListModel.compare_Z (SkipListModel.key nd) 4
      | _ => False
      end
  | _ => False
  end.
Proof.
  destruct (SkipListModel.Insert_all SkipListModel.compare_Z SkipListModel.replay_Next true
              (SkipListModel.SkipList_new 0 [4; 4]) [3; 5]) as [s| |] eqn:E;
    [|vm_compute in E; discriminate..].
  destruct (SkipListModel.FindGreatOrEqual SkipListModel.compare_Z s 4 false)
    as [[r s']| |] eqn:F.
  2,3: vm_compute in E; injection E as <-; vm_compute in F; discriminate.
  destruct (Insert_all_spec SkipListModel.compare_Z SkipListModel.replay_Next true
              [3; 5] _ s (SkipList_new_well_formed 0 [4; 4]) E) as (Hw & _).
  destruct (FindGreatOrEqual_result SkipListModel.compare_Z s s' 4 false r Hw F)
    as (_ & _ & _ & Hs & Hres).
  assert (Hr : r = Some 2%nat)
    by (vm_compute in E; injection E as <-; vm_compute in F; congruence).
  subst r. split; [reflexivity|]. split; [now apply Hs|]. exact (proj2 Hres).
Defined.

Lemma Contains_only_inserted_witness :
  exists k', In k' [3; 5] /\ SkipListModel.compare_Z 5 k' = 0.
Proof.
  destruct (SkipListModel.Insert_all SkipListModel.compare_Z SkipListModel.replay_Next true
              (SkipListModel.SkipList_new 0 [4; 4]) [3; 5]) as [s| |] eqn:E;
    [|vm_compute in E; discriminate..].
  apply (Contains_only_inserted SkipListModel.compare_Z 0 SkipListModel.replay_Next true
           [4; 4] [3; 5] s 5 E).
  vm_compute in E. injection E as <-. reflexivity.
Defined.

Lemma first_insert_found_witness :
  SkipListModel.bind
    (SkipListModel.Insert SkipListModel.compare_Z SkipListModel.replay_Next false
       (SkipListModel.SkipList_new 0 [1; 4]) 5)
    (fun s => SkipListModel.Contains SkipListModel.compare_Z s 5) = SkipListModel.Ok true.
Proof.
  apply (first_insert_found SkipListModel.compare_Z 0 SkipListModel.replay_Next false [1; 4] 5).
  reflexivity.
Defined.
